(** * Token-budgeted text splitter: a shallow embedding of
      [server/modules/text_splitter.py] and the properties of its chunks.

    The Python module exposes [get_weight] and [split_text_into_chunks]; the
    latter closes over [tokenizer] and [max_tokens] and defines three inner
    functions, [get_token_count], [optimize_chunks] and [split_by_weight].
    Each of them is embedded below under its own name.

    Conventions of the embedding:
    - a Python [str] is a list of code points ([str := list char], [char := N]);
      [len] is [length], [s[a:b]] is [slice s a b], [s + t] is [s ++ t] and
      [sep.join(l)] with an empty [sep] is [concat l];
    - positions and offsets are [nat], token counts and weights are [Z];
    - a computation is a pair of an outcome (a value or a raised exception)
      and the list of the segments handed to [tokenizer.encode], in call
      order, so that "no call to the tokenizer" is the empty list;
    - the Unicode property tables consulted by the regular expressions of
      [get_weight] and by [str.strip] belong to the [regex] package and to
      the interpreter, not to the repository: they are parameters. *)

From Stdlib Require Import ZArith Lia String.
From stdpp Require Import base list.
From Equations Require Import Equations.

Local Open Scope Z_scope.

(** ** Data model *)

Definition char : Type := N.
Definition str : Type := list char.

(** A chunk is the tuple [(start_index, chunk_text, token_count)]. *)
Definition chunk : Type := nat * str * Z.

Definition chunk_start (c : chunk) : nat := c.1.1.
Definition chunk_text (c : chunk) : str := c.1.2.
Definition chunk_tokens (c : chunk) : Z := c.2.

(** [s[a:b]] for non-negative bounds: Python clamps both bounds to the length
    and yields the empty string when [b <= a], as [take] and [drop] do. *)
Definition slice (s : str) (a b : nat) : str := take (b - a)%nat (drop a s).

(** Separator weight constants ([WEIGHTS = (4, 3, 2, 1, 0)]). *)
Definition PARAGRAPH_SEPARATOR_WEIGHT : Z := 4.
Definition SENTENCE_TERMINATOR_WEIGHT : Z := 3.
Definition OTHER_PUNCTUATION_WEIGHT : Z := 2.
Definition SPACE_WEIGHT : Z := 1.
Definition NO_WEIGHT : Z := 0.

(** The Unicode character database, as far as the module consults it: the
    general categories Zl, Zp, Po and Zs, the binary property STerm, and
    [str.isspace] (the characters [str.strip] removes). *)
Record unicode_db : Type := {
  is_Zl : char -> bool;
  is_Zp : char -> bool;
  is_STerm : char -> bool;
  is_Po : char -> bool;
  is_Zs : char -> bool;
  isspace : char -> bool
}.

(** The tokenizer is any object with an [encode] method; the module calls it
    as [encode(segment, add_special_tokens=.., truncation=.., max_length=..)]
    and only looks at the length of the result. *)
Record tokenizer_obj : Type := {
  encode : str -> bool -> bool -> Z -> list N
}.

(** The value a caller passes for [max_tokens]: an [int] (Python's [bool] is a
    subclass of [int], so [True] and [False] are the integers 1 and 0), or an
    object that is not an instance of [int]. *)
Inductive py_value : Type :=
  | PyInt (n : Z)
  | PyNotInt.

(** ** Exceptions and the call log *)

Inductive exn : Type :=
  | ValueError (msg : string)
  | IndexError
  | RecursionError.

Inductive outcome (A : Type) : Type :=
  | Ok (a : A)
  | Raised (e : exn).
Arguments Ok {A} a.
Arguments Raised {A} e.

(** An outcome together with the segments passed to [tokenizer.encode]. *)
Definition M (A : Type) : Type := outcome A * list str.

Definition ret {A} (a : A) : M A := (Ok a, []).
Definition raise {A} (e : exn) : M A := (Raised e, []).
Definition bind {A B} (m : M A) (k : A -> M B) : M B :=
  match m.1 with
  | Ok a => ((k a).1, m.2 ++ (k a).2)
  | Raised e => (Raised e, m.2)
  end.

Notation "'let*' x ':=' m 'in' k" := (bind m (fun x => k))
  (at level 10, x pattern, m at level 100, k at level 200).

Definition msg_max_tokens : string := "max_tokens must be a positive integer".
Definition msg_segment : string :=
  "Cannot split segment within token limit; consider increasing max_tokens".
Definition msg_remaining : string :=
  "Cannot split remaining text within token limit; consider increasing max_tokens".

(** CPython's default [sys.getrecursionlimit()]: the number of nested frames
    of [split_by_weight] after which the interpreter raises [RecursionError]. *)
Definition recursion_limit : nat := 1000.

(** ** [get_weight] *)

Section Weight.
Variable db : unicode_db.

(** The [lru_cache] decorator memoizes a pure function and is transparent. *)
Definition get_weight (c : char) : Z :=
  if (N.eqb c 10 || N.eqb c 13) || is_Zl db c || is_Zp db c
  then PARAGRAPH_SEPARATOR_WEIGHT
  else if is_STerm db c then SENTENCE_TERMINATOR_WEIGHT
  else if is_Po db c then OTHER_PUNCTUATION_WEIGHT
  else if is_Zs db c then SPACE_WEIGHT
  else NO_WEIGHT.

(** [s.lstrip()] and [s.strip()]: leading, then also trailing, whitespace
    removed. *)
Fixpoint lstrip (s : str) : str :=
  match s with
  | c :: s' => if isspace db c then lstrip s' else s
  | [] => []
  end.

Definition strip (s : str) : str := reverse (lstrip (reverse (lstrip s))).
End Weight.

(** ** The closure of [split_text_into_chunks]

    Inside the function body [tokenizer] and [max_tokens] are fixed, and
    [max_tokens] is an [int]. *)

Section Closure.
Variable db : unicode_db.
Variable tokenizer : tokenizer_obj.
Variable max_tokens : Z.

(** The number [len(tokenizer.encode(segment, ...))], without the log. *)
Definition token_count (segment : str) : Z :=
  Z.of_nat (length (encode tokenizer segment true true (max_tokens + 1))).

Definition get_token_count (segment : str) : M Z :=
  (Ok (token_count segment), [segment]).

(** *** [split_by_weight] *)

(** The local variables of [split_by_weight] that the loop updates. *)
Record split_state : Type := {
  chunks : list chunk;
  current_pos : nat;
  current_chunk : list str;
  current_chunk_tokens : Z;
  current_chunk_start : nat
}.

Definition nonempty {A} (l : list A) : bool :=
  match l with [] => false | _ => true end.

(** One iteration of [while i < len(text)], for [char = text[i]]; [rec] is
    the recursive call [split_by_weight(_, weight - 1, _)]. *)
Definition split_body (rec : str -> nat -> M (list chunk)) (text : str)
    (weight : Z) (i : nat) (c : char) (st : split_state) : M split_state :=
  let char_weight := get_weight db c in
  if weight <=? char_weight then
    let segment := slice text (current_pos st) (i + 1) in
    let* segment_tokens := get_token_count segment in
    if current_chunk_tokens st + segment_tokens <=? max_tokens then
      ret {| chunks := chunks st;
             current_pos := i + 1;
             current_chunk := current_chunk st ++ [segment];
             current_chunk_tokens := current_chunk_tokens st + segment_tokens;
             current_chunk_start := current_chunk_start st |}
    else
      let st1 :=
        if nonempty (current_chunk st) then
          let chunk_text := concat (current_chunk st) in
          {| chunks := chunks st ++
               [(current_chunk_start st, chunk_text, current_chunk_tokens st)];
             current_pos := current_pos st;
             current_chunk := [];
             current_chunk_tokens := 0;
             current_chunk_start :=
               (current_chunk_start st + length chunk_text)%nat |}
        else st in
      if (max_tokens <? segment_tokens) && (NO_WEIGHT <? weight) then
        let* sub_chunks := rec segment (current_chunk_start st1) in
        ret {| chunks := chunks st1 ++ sub_chunks;
               current_pos := i + 1;
               current_chunk := current_chunk st1;
               current_chunk_tokens := current_chunk_tokens st1;
               current_chunk_start :=
                 (current_chunk_start st1 + length segment)%nat |}
      else if segment_tokens <=? max_tokens then
        ret {| chunks := chunks st1;
               current_pos := i + 1;
               current_chunk := current_chunk st1 ++ [segment];
               current_chunk_tokens := segment_tokens;
               current_chunk_start := current_chunk_start st1 |}
      else raise (ValueError msg_segment)
  else ret st.

(** The loop [i = 0; while i < len(text): ...; i += 1], entered at index
    [i] with [rest = text[i:]]. *)
Fixpoint split_loop (rec : str -> nat -> M (list chunk)) (text : str)
    (weight : Z) (rest : str) (i : nat) (st : split_state) : M split_state :=
  match rest with
  | [] => ret st
  | c :: rest' =>
      let* st' := split_body rec text weight i c st in
      split_loop rec text weight rest' (S i) st'
  end.

(** "Handle remaining text" and "Add final chunk if exists"; the result is
    the list [chunks] that the function returns. *)
Definition split_tail (rec : str -> nat -> M (list chunk)) (text : str)
    (weight : Z) (st : split_state) : M (list chunk) :=
  let* st2 :=
    if (current_pos st <? length text)%nat then
      let remaining := drop (current_pos st) text in
      let* remaining_tokens := get_token_count remaining in
      if current_chunk_tokens st + remaining_tokens <=? max_tokens then
        ret {| chunks := chunks st;
               current_pos := current_pos st;
               current_chunk := current_chunk st ++ [remaining];
               current_chunk_tokens :=
                 current_chunk_tokens st + remaining_tokens;
               current_chunk_start := current_chunk_start st |}
      else
        (* here [current_chunk] and [current_chunk_tokens] are left as
           they are, unlike in the loop *)
        let st1 :=
          if nonempty (current_chunk st) then
            let chunk_text := concat (current_chunk st) in
            {| chunks := chunks st ++
                 [(current_chunk_start st, chunk_text,
                   current_chunk_tokens st)];
               current_pos := current_pos st;
               current_chunk := current_chunk st;
               current_chunk_tokens := current_chunk_tokens st;
               current_chunk_start :=
                 (current_chunk_start st + length chunk_text)%nat |}
          else st in
        if (max_tokens <? remaining_tokens) && (NO_WEIGHT <? weight) then
          let* sub_chunks := rec remaining (current_chunk_start st1) in
          ret {| chunks := chunks st1 ++ sub_chunks;
                 current_pos := current_pos st1;
                 current_chunk := current_chunk st1;
                 current_chunk_tokens := current_chunk_tokens st1;
                 current_chunk_start := current_chunk_start st1 |}
        else if remaining_tokens <=? max_tokens then
          ret {| chunks := chunks st1 ++
                   [(current_chunk_start st1, remaining, remaining_tokens)];
                 current_pos := current_pos st1;
                 current_chunk := current_chunk st1;
                 current_chunk_tokens := current_chunk_tokens st1;
                 current_chunk_start := current_chunk_start st1 |}
        else raise (ValueError msg_remaining)
    else ret st in
  if nonempty (current_chunk st2) then
    let chunk_text := concat (current_chunk st2) in
    ret (chunks st2 ++
           [(current_chunk_start st2, chunk_text, current_chunk_tokens st2)])
  else ret (chunks st2).

Definition split_init (start_idx : nat) : split_state :=
  {| chunks := [];
     current_pos := 0;
     current_chunk := [];
     current_chunk_tokens := 0;
     current_chunk_start := start_idx |}.

(** [split_by_weight(text, weight, start_idx)], run with [depth] frames of
    call stack left: a call that finds none raises [RecursionError]. *)
Fixpoint split_by_weight (depth : nat) (text : str) (weight : Z)
    (start_idx : nat) : M (list chunk) :=
  match depth with
  | O => raise RecursionError
  | S depth' =>
      let rec := fun segment start =>
        split_by_weight depth' segment (weight - 1) start in
      let* st := split_loop rec text weight text 0 (split_init start_idx) in
      split_tail rec text weight st
  end.

(** *** [optimize_chunks] *)

(** The body of [for j in range(len(current_text) - 1, 0, -1)]; the state
    is [(best_split_idx, best_split_weight)]. *)
Definition scan_body (current_text next_text : str)
    (best : option nat * Z) (j : nat) : M (option nat * Z) :=
  match current_text !! j with
  | None => raise IndexError
  | Some c =>
      let char_weight := get_weight db c in
      if best.2 <? char_weight then
        let split_pos := (j + 1)%nat in
        if (split_pos <=? length current_text)%nat then
          let potential_first := take split_pos current_text in
          let potential_next := drop split_pos current_text ++ next_text in
          let* potential_first_tokens := get_token_count potential_first in
          let* potential_next_tokens := get_token_count potential_next in
          if (potential_first_tokens <=? max_tokens)
             && (potential_next_tokens <=? max_tokens)
          then ret (Some split_pos, char_weight)
          else ret best
        else ret best
      else ret best
  end.

Fixpoint scan_loop (current_text next_text : str) (js : list nat)
    (best : option nat * Z) : M (option nat * Z) :=
  match js with
  | [] => ret best
  | j :: js' =>
      let* best' := scan_body current_text next_text best j in
      scan_loop current_text next_text js' best'
  end.

(** [range(n - 1, 0, -1)]: the indices [n - 1], [n - 2], ..., [1]. *)
Definition range_down (n : nat) : list nat := reverse (seq 1 (n - 1)).

(** The search for [best_split_idx], started from [(None, -1)]. *)
Definition find_split (current_text next_text : str) : M (option nat * Z) :=
  scan_loop current_text next_text (range_down (length current_text))
    (None, -1).

(** The loop [while i < len(chunks) - 1] over the state
    [(chunks, i, optimized)]; [chunks[i + 1] = ...] updates the list in
    place. *)
Equations? optimize_loop (chunks : list chunk) (i : nat)
    (optimized : list chunk) : M (list chunk * nat * list chunk)
    by wf (length chunks - i)%nat lt :=
  optimize_loop chunks i optimized with lt_dec i (length chunks - 1) := {
    | right _ => ret (chunks, i, optimized)
    | left _ =>
        match chunks !! i, chunks !! (i + 1)%nat with
        | Some (current_start, current_text, current_tokens),
          Some (next_start, next_text, next_tokens) =>
            let combined_text := current_text ++ next_text in
            let* combined_tokens := get_token_count combined_text in
            if combined_tokens <=? max_tokens then
              optimize_loop chunks (i + 2)%nat
                (optimized ++ [(current_start, combined_text, combined_tokens)])
            else
              let* best := find_split current_text next_text in
              match best.1 with
              | Some best_split_idx =>
                  let first_part := take best_split_idx current_text in
                  let* first_tokens := get_token_count first_part in
                  let second_part :=
                    drop best_split_idx current_text ++ next_text in
                  let* second_tokens := get_token_count second_part in
                  optimize_loop
                    (<[(i + 1)%nat :=
                        ((current_start + best_split_idx)%nat,
                         second_part, second_tokens)]> chunks)
                    (i + 1)%nat
                    (optimized ++ [(current_start, first_part, first_tokens)])
              | None =>
                  optimize_loop chunks (i + 1)%nat
                    (optimized ++ [(current_start, current_text, current_tokens)])
              end
        | _, _ => raise IndexError
        end }.
Proof.
  all: try rewrite length_insert; lia.
Qed.

Definition optimize_chunks (chunks : list chunk) : M (list chunk) :=
  if (length chunks <=? 1)%nat then ret chunks
  else
    let* final := optimize_loop chunks 0 [] in
    let '(chunks', i, optimized) := final in
    let* optimized :=
      if (i <? length chunks')%nat then
        match chunks' !! i with
        | Some c => ret (optimized ++ [c])
        | None => raise IndexError
        end
      else ret optimized in
    match last optimized with
    | Some c =>
        if decide (strip db (chunk_text c) = [])
        then ret (removelast optimized)
        else ret optimized
    | None => ret optimized
    end.

(** The body of [split_text_into_chunks] after the check of [max_tokens]. *)
Definition split_and_optimize (text : str) (optimize : bool) : M (list chunk) :=
  let* initial_chunks :=
    split_by_weight recursion_limit text PARAGRAPH_SEPARATOR_WEIGHT 0 in
  if optimize then optimize_chunks initial_chunks
  else ret initial_chunks.
End Closure.

(** ** [split_text_into_chunks] *)

Definition split_text_into_chunks (db : unicode_db) (text : str)
    (tokenizer : tokenizer_obj) (max_tokens : py_value) (optimize : bool)
    : M (list chunk) :=
  match max_tokens with
  | PyNotInt => raise (ValueError msg_max_tokens)
  | PyInt n =>
      if n <=? 0 then raise (ValueError msg_max_tokens)
      else split_and_optimize db tokenizer n text optimize
  end.


(** ** Concrete inputs

    The Unicode tables restricted to the code points below U+0100 together
    with the complete categories Zl, Zp and Zs; the texts used below are
    written in this range. *)

Definition mem_N (c : N) (l : list N) : bool := existsb (N.eqb c) l.

Definition latin1_db : unicode_db := {|
  is_Zl := fun c => N.eqb c 0x2028;
  is_Zp := fun c => N.eqb c 0x2029;
  is_STerm := fun c => mem_N c [0x21; 0x2E; 0x3F]%N;
  is_Po := fun c =>
    mem_N c [0x21; 0x22; 0x23; 0x25; 0x26; 0x27; 0x2A; 0x2C; 0x2E; 0x2F;
             0x3A; 0x3B; 0x3F; 0x40; 0x5C; 0xA1; 0xA7; 0xB6; 0xB7; 0xBF]%N;
  is_Zs := fun c =>
    mem_N c [0x20; 0xA0; 0x1680; 0x202F; 0x205F; 0x3000]%N
    || (N.leb 0x2000 c && N.leb c 0x200A);
  isspace := fun c =>
    (N.leb 0x09 c && N.leb c 0x0D) || (N.leb 0x1C c && N.leb c 0x20)
    || mem_N c [0x85; 0xA0; 0x1680; 0x2028; 0x2029; 0x202F; 0x205F; 0x3000]%N
    || (N.leb 0x2000 c && N.leb c 0x200A)
|}.

(** With [truncation=True] an encoding is cut to [max_length] tokens. *)
Definition truncate (truncation : bool) (max_length : Z) (ids : list N) : list N :=
  if truncation then take (Z.to_nat max_length) ids else ids.

(** A character-level tokenizer without special tokens: one token per code
    point. *)
Definition char_tokenizer : tokenizer_obj := {|
  encode := fun segment _ truncation max_length =>
    truncate truncation max_length segment
|}.

(** A character-level tokenizer that frames every encoding with a start and
    an end token (ids 1 and 2) when [add_special_tokens] is set. *)
Definition framed_tokenizer : tokenizer_obj := {|
  encode := fun segment add_special_tokens truncation max_length =>
    truncate truncation max_length
      (if add_special_tokens then 1%N :: segment ++ [2%N] else segment)
|}.

(** A tokenizer whose vocabulary holds the pair "ab" as one token (id 300)
    and falls back to three byte tokens for any other code point. *)
Fixpoint pair_ids (s : str) : list N :=
  match s with
  | 97%N :: (98%N :: s') => 300%N :: pair_ids s'
  | c :: s' => [256; 257; c]%N ++ pair_ids s'
  | [] => []
  end.

Definition pair_tokenizer : tokenizer_obj := {|
  encode := fun segment _ truncation max_length =>
    truncate truncation max_length (pair_ids segment)
|}.

(** The texts "a\nbb", "a\nb\n", "\n\n\n\n\na", "ab", "a", "One. Two" and
    "Hi. o. a" as code points (10 is the line feed, 32 the space, 46 the full
    stop). *)
Definition text_a_nl_bb : str := [97; 10; 98; 98]%N.
Definition text_a_nl_b_nl : str := [97; 10; 98; 10]%N.
Definition text_5nl_a : str := [10; 10; 10; 10; 10; 97]%N.
Definition text_ab : str := [97; 98]%N.
Definition text_a : str := [97]%N.
Definition text_one_two : str := [79; 110; 101; 46; 32; 84; 119; 111]%N.
Definition text_hi_o_a : str := [72; 105; 46; 32; 111; 46; 32; 97]%N.

(** The text "A. Bcd" and the two chunk texts " Bcd" and "A." that the
    optimizer meets on it (65 is "A", 66 "B", 99 "c", 100 "d"). *)
Definition text_a_dot_bcd : str := [65; 46; 32; 66; 99; 100]%N.
Definition text_sp_bcd : str := [32; 66; 99; 100]%N.
Definition text_a_dot : str := [65; 46]%N.


(** ** The units of a text at a tier

    The splitter cuts a text just after every character whose weight reaches
    the tier; the pieces, and the trailing text after the last such
    character, are the candidate units it hands to the counter. *)

Fixpoint units_from (db : unicode_db) (weight : Z) (pending rest : str)
    : list str :=
  match rest with
  | [] => if nonempty pending then [pending] else []
  | c :: rest' =>
      if weight <=? get_weight db c
      then (pending ++ [c]) :: units_from db weight [] rest'
      else units_from db weight (pending ++ [c]) rest'
  end.

Definition units (db : unicode_db) (weight : Z) (text : str) : list str :=
  units_from db weight [] text.

(** The sum of the counter's results over a list of segments. *)
Definition seg_sum (tokenizer : tokenizer_obj) (max_tokens : Z)
    (segs : list str) : Z :=
  foldr (fun s acc => token_count tokenizer max_tokens s + acc) 0 segs.

(** ** Vocabulary of the statements *)

Section Vocabulary.
Variable db : unicode_db.
Variable tokenizer : tokenizer_obj.
Variable max_tokens : Z.

(** A chunk is well formed when it fits the budget and its count is the
    sum of the counts of non-empty pieces that make up its text. *)
Definition good_chunk (c : chunk) : Prop :=
  chunk_tokens c <= max_tokens /\
  exists segs : list str,
    segs <> [] /\ Forall (fun s => s <> []) segs /\
    concat segs = chunk_text c /\
    chunk_tokens c = seg_sum tokenizer max_tokens segs.

(** The invariant of the splitter's loop at index [i]. *)
Definition split_inv (i : nat) (st : split_state) : Prop :=
  Forall good_chunk (chunks st) /\
  (current_pos st <= i)%nat /\
  Forall (fun s => s <> []) (current_chunk st) /\
  current_chunk_tokens st = seg_sum tokenizer max_tokens (current_chunk st) /\
  current_chunk_tokens st <= max_tokens.

(** Splitting [current_text] at [p] is valid when both the prefix and the
    suffix joined to [next_text] fit the budget. *)
Definition valid_split (current_text next_text : str) (p : nat) : Prop :=
  token_count tokenizer max_tokens (take p current_text) <= max_tokens /\
  token_count tokenizer max_tokens (drop p current_text ++ next_text)
    <= max_tokens.

Definition valid_splitb (current_text next_text : str) (p : nat) : bool :=
  (token_count tokenizer max_tokens (take p current_text) <=? max_tokens)
  && (token_count tokenizer max_tokens (drop p current_text ++ next_text)
      <=? max_tokens).

(** The adopted position after the scan has visited every index above [k]:
    none when no visited index gives a valid split; otherwise the split just
    after the index [j] that is valid, of the highest weight among the valid
    visited indices and the rightmost of that weight. *)
Definition scan_post (cur nxt : str) (k : nat) (best : option nat * Z) : Prop :=
  match best.1 with
  | None =>
      best.2 = -1 /\
      forall j, (k < j < length cur)%nat -> ~ valid_split cur nxt (j + 1)
  | Some p =>
      exists j c,
        p = (j + 1)%nat /\ (k < j < length cur)%nat /\ cur !! j = Some c /\
        best.2 = get_weight db c /\ valid_split cur nxt p /\
        forall j' c', (k < j' < length cur)%nat -> cur !! j' = Some c' ->
          valid_split cur nxt (j' + 1) ->
          get_weight db c' < get_weight db c \/
          (get_weight db c' = get_weight db c /\ (j' <= j)%nat)
  end.

(** Position [k] of [text] cannot be placed: every span of the text that
    holds it exceeds the budget. *)
Definition unsplittable_at (text : str) (k : nat) : Prop :=
  (k < length text)%nat /\
  forall a b, (a <= k < b)%nat -> (b <= length text)%nat ->
    max_tokens < token_count tokenizer max_tokens (slice text a b).

(** While the splitter has not passed position [k]. *)
Definition stuck_inv (k : nat) (st : split_state) : Prop :=
  (current_pos st <= k)%nat /\ 0 <= current_chunk_tokens st.

(** The one chunk built from the pieces [all], if there is any piece. *)
Definition single_chunk (start : nat) (all : list str) : list chunk :=
  if nonempty all
  then [(start, concat all, seg_sum tokenizer max_tokens all)] else [].
End Vocabulary.

(** A value of [max_tokens] that is a positive integer. *)
Definition positive_int (v : py_value) : Prop :=
  match v with
  | PyInt n => 0 < n
  | PyNotInt => False
  end.

(** A chunk list is contiguous from offset [s] when its first chunk starts
    at [s] and every chunk starts where the previous one ends. *)
Fixpoint contiguous_from (s : nat) (cs : list chunk) : Prop :=
  match cs with
  | [] => True
  | c :: cs' =>
      chunk_start c = s /\
      contiguous_from (s + length (chunk_text c))%nat cs'
  end.

(** The texts of a chunk list, joined in order. *)
Definition joined_text (cs : list chunk) : str := concat (map chunk_text cs).

(** The counter is additive up to its cap of [max_tokens + 1]. *)
Definition additive_counter (tokenizer : tokenizer_obj) (max_tokens : Z)
    : Prop :=
  forall a b : str,
    token_count tokenizer max_tokens (a ++ b) =
    Z.min (token_count tokenizer max_tokens a
           + token_count tokenizer max_tokens b) (max_tokens + 1).

(** A chunk list that begins with a chunk at offset [s]. *)
Definition starts_at (s : nat) (cs : list chunk) : Prop :=
  exists c rest, cs = c :: rest /\ chunk_start c = s.

(** While the splitter has emitted no chunk its pending chunk starts at
    [start_idx], and nothing is pending only if nothing was consumed; once it
    has emitted one, the first chunk starts at [start_idx]. *)
Definition head_inv (start_idx : nat) (st : split_state) : Prop :=
  match chunks st with
  | [] =>
      current_chunk_start st = start_idx /\
      (current_chunk st = [] -> current_pos st = 0%nat)
  | c :: _ => chunk_start c = start_idx
  end.

(** A computation that hands no empty segment to the tokenizer. *)
Definition calls_nonempty {A} (m : M A) : Prop :=
  Forall (fun s : str => s <> []) m.2.

(** The count of a chunk is the counter's result on its text. *)
Definition exact_count (tokenizer : tokenizer_obj) (max_tokens : Z)
    (c : chunk) : Prop :=
  chunk_tokens c = token_count tokenizer max_tokens (chunk_text c).

(** The count of a chunk is the sum of the counter's results on the units of
    its own text at one of the five tiers. *)
Definition unit_sum_count (db : unicode_db) (tokenizer : tokenizer_obj)
    (max_tokens : Z) (c : chunk) : Prop :=
  exists w, 0 <= w <= 4 /\
    chunk_tokens c = seg_sum tokenizer max_tokens (units db w (chunk_text c)).

(** A unit closed by a separator of the tier: its last character reaches the
    tier and no earlier one does. *)
Definition closed_unit (db : unicode_db) (weight : Z) (seg : str) : Prop :=
  exists body c,
    seg = body ++ [c] /\
    Forall (fun x => get_weight db x < weight) body /\
    weight <= get_weight db c.

(** The splitter's loop at index [i] of a call at tier [weight]: the chunks
    emitted so far carry unit sums, the text consumed since [current_pos]
    holds no separator of the tier, and the pending chunk is made of closed
    units whose counts add up to [current_chunk_tokens]. *)
Definition tier_inv (db : unicode_db) (tokenizer : tokenizer_obj)
    (max_tokens : Z) (text : str) (weight : Z) (i : nat) (st : split_state)
    : Prop :=
  Forall (unit_sum_count db tokenizer max_tokens) (chunks st) /\
  (current_pos st <= i)%nat /\
  Forall (fun x => get_weight db x < weight) (slice text (current_pos st) i) /\
  Forall (closed_unit db weight) (current_chunk st) /\
  current_chunk_tokens st = seg_sum tokenizer max_tokens (current_chunk st).

(** ** Monad laws used below *)

Lemma fst_bind {A B} (m : M A) (k : A -> M B) :
  (bind m k).1 = match m.1 with Ok a => (k a).1 | Raised e => Raised e end.
Proof. unfold bind. destruct m.1; reflexivity. Qed.

Lemma snd_bind {A B} (m : M A) (k : A -> M B) :
  (bind m k).2 = match m.1 with Ok a => m.2 ++ (k a).2 | Raised e => m.2 end.
Proof. unfold bind. destruct m.1; reflexivity. Qed.

Lemma bind_Ok_inv {A B} (m : M A) (k : A -> M B) (b : B) :
  (bind m k).1 = Ok b -> exists a, m.1 = Ok a /\ (k a).1 = Ok b.
Proof.
  rewrite fst_bind. destruct m.1 as [a|e]; [eauto | discriminate].
Qed.

Lemma bind_Raised_inv {A B} (m : M A) (k : A -> M B) (e : exn) :
  (bind m k).1 = Raised e ->
  m.1 = Raised e \/ exists a, m.1 = Ok a /\ (k a).1 = Raised e.
Proof.
  rewrite fst_bind. destruct m.1 as [a|e']; [eauto | intros [= ->]; auto].
Qed.

Lemma bind_ext {A B} (m : M A) (k k' : A -> M B) :
  (forall a, k a = k' a) -> bind m k = bind m k'.
Proof. intros Hk. unfold bind. destruct m.1; [rewrite Hk|]; reflexivity. Qed.

Lemma bind_Ok {A B} (a : A) (l : list str) (k : A -> M B) :
  bind (Ok a, l) k = ((k a).1, l ++ (k a).2).
Proof. reflexivity. Qed.

Lemma bind_ret_l {A B} (a : A) (k : A -> M B) : bind (ret a) k = k a.
Proof. unfold bind, ret. simpl. by destruct (k a). Qed.

Lemma bind_assoc {A B C} (m : M A) (f : A -> M B) (g : B -> M C) :
  bind (bind m f) g = bind m (fun a => bind (f a) g).
Proof.
  unfold bind. destruct m as [[a|e] l]; simpl; [|reflexivity].
  destruct (f a) as [[b|e] l']; simpl; [|reflexivity].
  by rewrite app_assoc.
Qed.

(** ** Elementary facts *)

Lemma get_weight_range db c : 0 <= get_weight db c <= 4.
Proof.
  unfold get_weight, PARAGRAPH_SEPARATOR_WEIGHT, SENTENCE_TERMINATOR_WEIGHT,
    OTHER_PUNCTUATION_WEIGHT, SPACE_WEIGHT, NO_WEIGHT.
  repeat case_match; lia.
Qed.

Lemma token_count_nonneg tok n s : 0 <= token_count tok n s.
Proof. unfold token_count. lia. Qed.

Lemma seg_sum_app tok n l1 l2 :
  seg_sum tok n (l1 ++ l2) = seg_sum tok n l1 + seg_sum tok n l2.
Proof. induction l1 as [|s l1 IH]; simpl; [|rewrite IH]; lia. Qed.

Lemma seg_sum_nonneg tok n l : 0 <= seg_sum tok n l.
Proof.
  induction l as [|s l IH]; simpl; [lia|].
  pose proof (token_count_nonneg tok n s). lia.
Qed.

Lemma nonempty_true {A} (l : list A) : nonempty l = true <-> l <> [].
Proof. destruct l; simpl; split; congruence. Qed.

Lemma nonempty_snoc {A} (l : list A) (x : A) : nonempty (l ++ [x]) = true.
Proof. by destruct l. Qed.

Lemma slice_nonempty (s : str) a b :
  (a < b)%nat -> (a < length s)%nat -> slice s a b <> [].
Proof.
  intros Hab Ha Hnil. apply (f_equal length) in Hnil.
  unfold slice in Hnil. rewrite length_take, length_drop in Hnil.
  simpl in Hnil. lia.
Qed.

Lemma drop_nonempty (s : str) a : (a < length s)%nat -> drop a s <> [].
Proof.
  intros Ha Hnil. apply (f_equal length) in Hnil.
  rewrite length_drop in Hnil. simpl in Hnil. lia.
Qed.

(** ** What the splitter guarantees of every chunk *)

Section SplitterInvariant.
Variable db : unicode_db.
Variable tokenizer : tokenizer_obj.
Variable max_tokens : Z.
Hypothesis max_tokens_pos : 0 < max_tokens.

Local Abbreviation count := (token_count tokenizer max_tokens).
Local Abbreviation total := (seg_sum tokenizer max_tokens).
Local Abbreviation good := (good_chunk tokenizer max_tokens).
Local Abbreviation inv := (split_inv tokenizer max_tokens).

Lemma good_chunk_pending start (segs : list str) :
  segs <> [] -> Forall (fun s => s <> []) segs -> total segs <= max_tokens ->
  good (start, concat segs, total segs).
Proof. intros ? ? ?. split; [assumption|]. exists segs. auto. Qed.

Lemma good_chunk_single start (s : str) :
  s <> [] -> count s <= max_tokens -> good (start, s, count s).
Proof.
  intros Hs Hle. split; [assumption|]. exists [s].
  repeat split; [congruence | by constructor | simpl; by rewrite app_nil_r
                | simpl; lia].
Qed.

Section LoopBody.
Variable rec : str -> nat -> M (list chunk).
Hypothesis rec_good : forall seg start cs,
  (rec seg start).1 = Ok cs -> Forall good cs.
Variables (text : str) (weight : Z).

Lemma split_body_inv i c st st' :
  (i < length text)%nat -> inv i st ->
  (split_body db tokenizer max_tokens rec text weight i c st).1 = Ok st' ->
  inv (S i) st'.
Proof.
  intros Hi (Hch & Hpos & Hne & Htok & Hle) H.
  unfold split_body in H.
  destruct (weight <=? get_weight db c);
    [|injection H as <-; repeat split; auto with lia].
  rewrite fst_bind in H. simpl in H.
  set (segment := slice text (current_pos st) (i + 1)) in *.
  assert (Hseg : segment <> [])
    by (apply slice_nonempty; lia).
  destruct (Z.leb_spec (current_chunk_tokens st + count segment) max_tokens)
    as [Hfit|Hover].
  { injection H as <-. repeat split; simpl; auto with lia.
    - apply Forall_app; split; [assumption | by constructor].
    - rewrite seg_sum_app. simpl. lia. }
  set (st1 := if nonempty (current_chunk st) then _ else st) in H.
  assert (H1 : Forall good (chunks st1) /\
               Forall (fun s => s <> []) (current_chunk st1) /\
               current_chunk_tokens st1 = total (current_chunk st1) /\
               current_chunk_tokens st1 <= max_tokens).
  { subst st1. destruct (nonempty (current_chunk st)) eqn:Hcur; simpl;
      [|auto].
    apply nonempty_true in Hcur. repeat split; auto with lia.
    apply Forall_app; split; [assumption|]. constructor; [|constructor].
    rewrite Htok. apply good_chunk_pending; auto. lia. }
  destruct H1 as (Hch1 & Hne1 & Htok1 & Hle1).
  destruct ((max_tokens <? count segment) && (NO_WEIGHT <? weight)).
  { apply bind_Ok_inv in H as (sub & Hsub & H). injection H as <-.
    repeat split; simpl; auto with lia.
    apply Forall_app; split; [assumption|]. eauto. }
  destruct (Z.leb_spec (count segment) max_tokens) as [Hone|Hbig];
    [|discriminate].
  injection H as <-. repeat split; simpl; auto with lia.
  - apply Forall_app; split; [assumption | by constructor].
  - (* the pending chunk was just emptied or was empty already *)
    assert (current_chunk st1 = []) as ->.
    { subst st1. destruct (current_chunk st) eqn:Hc; simpl; [|reflexivity].
      rewrite Hc. reflexivity. }
    simpl. lia.
Qed.

Lemma split_loop_inv rest : forall i st st',
  length text = (i + length rest)%nat -> inv i st ->
  (split_loop db tokenizer max_tokens rec text weight rest i st).1 = Ok st' ->
  inv (length text) st'.
Proof.
  induction rest as [|c rest IH]; intros i st st' Hlen Hinv H; simpl in *.
  - injection H as <-. replace (length text) with i by lia. assumption.
  - apply bind_Ok_inv in H as (st1 & Hbody & H).
    apply (IH (S i) st1); [lia | | assumption].
    eapply split_body_inv; [| eassumption | eassumption]. lia.
Qed.

Lemma split_tail_good st cs :
  inv (length text) st ->
  (split_tail tokenizer max_tokens rec text weight st).1 = Ok cs ->
  Forall good cs.
Proof.
  intros (Hch & Hpos & Hne & Htok & Hle) H.
  unfold split_tail in H. apply bind_Ok_inv in H as (st2 & H2 & H).
  assert (Hst2 : Forall good (chunks st2) /\
            Forall (fun s => s <> []) (current_chunk st2) /\
            current_chunk_tokens st2 = total (current_chunk st2) /\
            current_chunk_tokens st2 <= max_tokens).
  { destruct (Nat.ltb_spec (current_pos st) (length text)) as [Hrem|_];
      [|injection H2 as <-; auto].
    rewrite fst_bind in H2. simpl in H2.
    set (remaining := drop (current_pos st) text) in *.
    assert (Hrne : remaining <> []) by (by apply drop_nonempty).
    destruct (Z.leb_spec (current_chunk_tokens st + count remaining)
                max_tokens) as [Hfit|Hover].
    { injection H2 as <-. repeat split; simpl; auto.
      - apply Forall_app; split; [assumption | by constructor].
      - rewrite seg_sum_app. simpl. lia. }
    set (st1 := if nonempty (current_chunk st) then _ else st) in H2.
    assert (H1 : Forall good (chunks st1) /\
                 current_chunk st1 = current_chunk st /\
                 current_chunk_tokens st1 = current_chunk_tokens st).
    { subst st1. destruct (nonempty (current_chunk st)) eqn:Hcur; simpl;
        [|auto].
      apply nonempty_true in Hcur. repeat split.
      apply Forall_app; split; [assumption|]. constructor; [|constructor].
      rewrite Htok. apply good_chunk_pending; auto. lia. }
    destruct H1 as (Hch1 & Hcur1 & Htok1).
    destruct ((max_tokens <? count remaining) && (NO_WEIGHT <? weight)).
    { apply bind_Ok_inv in H2 as (sub & Hsub & H2). injection H2 as <-.
      simpl. rewrite Hcur1, Htok1. repeat split; auto.
      apply Forall_app; split; [assumption|]. eauto. }
    destruct (Z.leb_spec (count remaining) max_tokens) as [Hone|Hbig];
      [|discriminate].
    injection H2 as <-. simpl. rewrite Hcur1, Htok1. repeat split; auto.
    apply Forall_app; split; [assumption|]. constructor; [|constructor].
    by apply good_chunk_single. }
  destruct Hst2 as (Hch2 & Hne2 & Htok2 & Hle2).
  destruct (nonempty (current_chunk st2)) eqn:Hcur; injection H as <-;
    [|assumption].
  apply nonempty_true in Hcur.
  apply Forall_app; split; [assumption|]. constructor; [|constructor].
  rewrite Htok2. apply good_chunk_pending; auto. lia.
Qed.
End LoopBody.

Lemma split_init_inv start : inv 0 (split_init start).
Proof. repeat split; simpl; auto with lia. Qed.

Lemma split_by_weight_good depth : forall text weight start cs,
  (split_by_weight db tokenizer max_tokens depth text weight start).1 = Ok cs ->
  Forall good cs.
Proof.
  induction depth as [|depth IH]; intros text weight start cs H; simpl in H;
    [discriminate|].
  apply bind_Ok_inv in H as (st & Hloop & Htail).
  eapply split_tail_good; [ | | eassumption].
  - intros seg s cs'. apply IH.
  - eapply split_loop_inv; [ | | | eassumption].
    + intros seg s cs'. apply IH.
    + reflexivity.
    + apply split_init_inv.
Qed.
End SplitterInvariant.

(** ** The search for a split position in the optimizer *)

Section Scan.
Variable db : unicode_db.
Variable tokenizer : tokenizer_obj.
Variable max_tokens : Z.

Local Abbreviation count := (token_count tokenizer max_tokens).
Local Abbreviation valid := (valid_split tokenizer max_tokens).
Local Abbreviation validb := (valid_splitb tokenizer max_tokens).
Local Abbreviation post := (scan_post db tokenizer max_tokens).

Lemma valid_splitb_spec cur nxt p :
  validb cur nxt p = true <-> valid cur nxt p.
Proof.
  unfold valid_splitb, valid_split.
  rewrite andb_true_iff, !Z.leb_le. reflexivity.
Qed.

Lemma scan_body_step cur nxt best j c :
  cur !! j = Some c ->
  (scan_body db tokenizer max_tokens cur nxt best j).1 =
  Ok (if (best.2 <? get_weight db c) && validb cur nxt (j + 1)
      then (Some (j + 1)%nat, get_weight db c) else best).
Proof.
  intros Hc. unfold scan_body, valid_splitb. rewrite Hc.
  apply lookup_lt_Some in Hc.
  destruct (best.2 <? get_weight db c); [|reflexivity]. simpl.
  destruct (Nat.leb_spec (j + 1) (length cur)) as [_|Hbad]; [|lia].
  rewrite !fst_bind. simpl.
  destruct (_ && _); reflexivity.
Qed.

Lemma scan_body_post cur nxt k best c :
  cur !! S k = Some c -> post cur nxt (S k) best ->
  post cur nxt k
    (if (best.2 <? get_weight db c) && validb cur nxt (S k + 1)
     then (Some (S k + 1)%nat, get_weight db c) else best).
Proof.
  intros Hc Hpost. pose proof (lookup_lt_Some _ _ _ Hc) as Hlt.
  pose proof (get_weight_range db c) as Hw.
  destruct (Z.ltb_spec best.2 (get_weight db c)) as [Hhigher|Hlower];
    [rewrite andb_true_l | rewrite andb_false_l].
  - destruct (validb cur nxt (S k + 1)) eqn:Hvalid.
    + (* adopted: every valid index visited before has a lower weight *)
      apply valid_splitb_spec in Hvalid. unfold scan_post in *.
      cbn [fst snd].
      exists (S k), c. split_and!; try (assumption || lia).
      intros j' c' Hj' Hc' Hv'.
      destruct (decide (j' = S k)) as [->|Hne].
      { right. split; [congruence | lia]. }
      left. destruct best.1 as [p|].
      * destruct Hpost as (j & cj & -> & Hj & Hcj & Hbw & Hv & Hmax).
        destruct (Hmax j' c') as [?|[? ?]]; (assumption || lia).
      * destruct Hpost as [_ Hnone]. exfalso. apply (Hnone j'); [lia | assumption].
    + (* rejected: index [S k] is no valid split *)
      assert (Hinv : ~ valid cur nxt (S k + 1)).
      { rewrite <- valid_splitb_spec. congruence. }
      unfold scan_post in *. destruct best.1 as [p|].
      * destruct Hpost as (j & cj & -> & Hj & Hcj & Hbw & Hv & Hmax).
        exists j, cj. split_and!; try (assumption || lia).
        intros j' c' Hj' Hc' Hv'.
        destruct (decide (j' = S k)) as [->|Hne]; [contradiction|].
        apply Hmax; (assumption || lia).
      * destruct Hpost as [Hbw Hnone]. split; [assumption|].
        intros j' Hj'. destruct (decide (j' = S k)) as [->|Hne]; [assumption|].
        apply Hnone. lia.
  - (* not proposed: the adopted weight is at least that of index [S k] *)
    unfold scan_post in *. destruct best.1 as [p|].
    + destruct Hpost as (j & cj & -> & Hj & Hcj & Hbw & Hv & Hmax).
      exists j, cj. split_and!; try (assumption || lia).
      intros j' c' Hj' Hc' Hv'.
      destruct (decide (j' = S k)) as [->|Hne].
      { assert (c' = c) as -> by congruence. lia. }
      apply Hmax; (assumption || lia).
    + destruct Hpost as [Hbw _]. lia.
Qed.

Lemma scan_loop_post cur nxt k : forall best,
  (k <= length cur - 1)%nat -> post cur nxt k best ->
  exists best',
    (scan_loop db tokenizer max_tokens cur nxt (reverse (seq 1 k)) best).1
      = Ok best' /\
    post cur nxt 0 best'.
Proof.
  induction k as [|k IH]; intros best Hk Hpost.
  - exists best. split; [reflexivity | assumption].
  - rewrite seq_S, reverse_snoc. simpl.
    destruct (lookup_lt_is_Some_2 cur (S k)) as [c Hc]; [lia|].
    rewrite fst_bind, (scan_body_step _ _ _ _ c Hc).
    apply IH; [lia|]. by apply scan_body_post.
Qed.

Lemma find_split_post cur nxt :
  exists best,
    (find_split db tokenizer max_tokens cur nxt).1 = Ok best /\
    post cur nxt 0 best.
Proof.
  unfold find_split, range_down. apply scan_loop_post; [lia|].
  unfold scan_post. simpl. split; [reflexivity|]. intros j Hj. lia.
Qed.

Lemma find_split_valid cur nxt best p :
  (find_split db tokenizer max_tokens cur nxt).1 = Ok best -> best.1 = Some p ->
  valid cur nxt p /\ (2 <= p <= length cur)%nat.
Proof.
  intros Hfind Hp. destruct (find_split_post cur nxt) as (best' & Heq & Hpost).
  rewrite Hfind in Heq. injection Heq as <-.
  unfold scan_post in Hpost. rewrite Hp in Hpost.
  destruct Hpost as (j & c & -> & Hj & _ & _ & Hv & _).
  split; [assumption | lia].
Qed.
End Scan.

(** ** What the optimizer preserves *)

Section OptimizerInvariant.
Variable db : unicode_db.
Variable tokenizer : tokenizer_obj.
Variable max_tokens : Z.

Local Abbreviation count := (token_count tokenizer max_tokens).
Local Abbreviation good := (good_chunk tokenizer max_tokens).

Lemma good_chunk_text_nonempty c : good c -> chunk_text c <> [].
Proof.
  intros (_ & segs & Hne & Hall & <- & _).
  destruct segs as [|s segs]; [congruence|].
  apply Forall_cons in Hall as [Hs _]. simpl.
  destruct s; [congruence | discriminate].
Qed.

Lemma good_chunk_counted start (s : str) :
  s <> [] -> count s <= max_tokens -> good (start, s, count s).
Proof.
  intros Hs Hle. split; [assumption|]. exists [s].
  split_and!; [congruence | by constructor | simpl; by rewrite app_nil_r
              | simpl; lia].
Qed.

(** One unfolding of the [while] loop. *)
Lemma optimize_loop_once chunks i optimized :
  optimize_loop db tokenizer max_tokens chunks i optimized =
  if lt_dec i (length chunks - 1) then
    match chunks !! i, chunks !! (i + 1)%nat with
    | Some (current_start, current_text, current_tokens),
      Some (next_start, next_text, next_tokens) =>
        let combined_text := current_text ++ next_text in
        let* combined_tokens :=
          get_token_count tokenizer max_tokens combined_text in
        if combined_tokens <=? max_tokens then
          optimize_loop db tokenizer max_tokens chunks (i + 2)%nat
            (optimized ++ [(current_start, combined_text, combined_tokens)])
        else
          let* best :=
            find_split db tokenizer max_tokens current_text next_text in
          match best.1 with
          | Some best_split_idx =>
              let first_part := take best_split_idx current_text in
              let* first_tokens :=
                get_token_count tokenizer max_tokens first_part in
              let second_part := drop best_split_idx current_text ++ next_text in
              let* second_tokens :=
                get_token_count tokenizer max_tokens second_part in
              optimize_loop db tokenizer max_tokens
                (<[(i + 1)%nat :=
                    ((current_start + best_split_idx)%nat,
                     second_part, second_tokens)]> chunks)
                (i + 1)%nat
                (optimized ++ [(current_start, first_part, first_tokens)])
          | None =>
              optimize_loop db tokenizer max_tokens chunks (i + 1)%nat
                (optimized ++ [(current_start, current_text, current_tokens)])
          end
    | _, _ => raise IndexError
    end
  else ret (chunks, i, optimized).
Proof.
  rewrite optimize_loop_equation_1.
  destruct (lt_dec i (length chunks - 1)); reflexivity.
Qed.

Lemma optimize_loop_good n : forall chunks i optimized res,
  (length chunks - i <= n)%nat ->
  Forall good chunks -> Forall good optimized ->
  (optimize_loop db tokenizer max_tokens chunks i optimized).1 = Ok res ->
  Forall good res.1.1 /\ Forall good res.2.
Proof.
  induction n as [|n IH]; intros chunks i optimized res Hn Hch Hopt H;
    rewrite optimize_loop_once in H;
    destruct (lt_dec i (length chunks - 1)) as [Hlt|Hge];
    try (injection H as <-; by split); [lia|].
  destruct (chunks !! i) as [[[cs ct] ctok]|] eqn:Hcur; [|discriminate].
  destruct (chunks !! (i + 1)%nat) as [[[ns nt] ntok]|] eqn:Hnext;
    [|discriminate].
  pose proof (Forall_lookup_1 _ _ _ _ Hch Hcur) as Hgc.
  pose proof (Forall_lookup_1 _ _ _ _ Hch Hnext) as Hgn.
  pose proof (good_chunk_text_nonempty _ Hgc) as Hct.
  pose proof (good_chunk_text_nonempty _ Hgn) as Hnt.
  unfold chunk_text in Hct, Hnt. simpl in Hct, Hnt.
  cbv zeta in H. rewrite fst_bind in H. simpl in H.
  destruct (Z.leb_spec (count (ct ++ nt)) max_tokens) as [Hmerge|Hover].
  { apply IH in H; [assumption | lia | assumption |].
    apply Forall_app; split; [assumption|]. constructor; [|constructor].
    apply good_chunk_counted; [|assumption].
    destruct ct; [congruence | discriminate]. }
  apply bind_Ok_inv in H as (best & Hfind & H).
  destruct best.1 as [p|] eqn:Hbest.
  - destruct (find_split_valid _ _ _ _ _ _ _ Hfind Hbest) as [[Hv1 Hv2] Hp].
    rewrite !fst_bind in H. simpl in H.
    apply IH in H; [assumption | rewrite length_insert; lia | |].
    + apply Forall_insert; [assumption|].
      apply good_chunk_counted; [|assumption].
      intros Hnil. apply app_eq_nil in Hnil as [_ ?]. contradiction.
    + apply Forall_app; split; [assumption|]. constructor; [|constructor].
      apply good_chunk_counted; [|assumption].
      intros Hnil. apply (f_equal length) in Hnil.
      rewrite length_take in Hnil. simpl in Hnil. lia.
  - apply IH in H; [assumption | lia | assumption |].
    apply Forall_app; split; [assumption|]. by constructor.
Qed.

(** The loop never fails: both chunks it reads exist and the scan returns. *)
Lemma optimize_loop_total n : forall chunks i optimized,
  (length chunks - i <= n)%nat ->
  exists res,
    (optimize_loop db tokenizer max_tokens chunks i optimized).1 = Ok res /\
    length res.1.1 = length chunks /\ (length chunks - 1 <= res.1.2)%nat.
Proof.
  induction n as [|n IH]; intros chunks i optimized Hn;
    rewrite optimize_loop_once;
    destruct (lt_dec i (length chunks - 1)) as [Hlt|Hge];
    try (eexists; split; [reflexivity | simpl; lia]); [lia|].
  destruct (chunks !! i) as [[[cs ct] ctok]|] eqn:Hcur;
    [|apply lookup_ge_None in Hcur;
      change (length chunks <= i)%nat in Hcur; lia].
  destruct (chunks !! (i + 1)%nat) as [[[ns nt] ntok]|] eqn:Hnext;
    [|apply lookup_ge_None in Hnext;
      change (length chunks <= i + 1)%nat in Hnext; lia].
  cbv zeta. rewrite fst_bind. simpl.
  destruct (_ <=? _); [apply IH; lia|].
  rewrite fst_bind.
  destruct (find_split_post db tokenizer max_tokens ct nt) as (best & -> & _).
  destruct best.1 as [p|]; [|apply IH; lia].
  rewrite !fst_bind. simpl.
  edestruct (IH (<[(i + 1)%nat := ((cs + p)%nat, drop p ct ++ nt,
                   count (drop p ct ++ nt))]> chunks) (i + 1)%nat)
    as (res & Hres & Hlen & Hi); [rewrite length_insert; lia|].
  rewrite length_insert in Hlen, Hi. eauto.
Qed.

Lemma optimize_chunks_total chunks :
  exists cs, (optimize_chunks db tokenizer max_tokens chunks).1 = Ok cs.
Proof.
  unfold optimize_chunks. destruct (_ <=? _)%nat; [by eexists|].
  rewrite fst_bind.
  destruct (optimize_loop_total (length chunks) chunks 0 [] ltac:(lia))
    as ([[chunks' i] optimized] & -> & Hlen & Hi).
  simpl in Hlen, Hi. rewrite fst_bind.
  destruct (i <? length chunks')%nat eqn:Hlt.
  - apply Nat.ltb_lt in Hlt.
    destruct (chunks' !! i) as [c|] eqn:Hc;
      [|apply lookup_ge_None in Hc; lia].
    simpl. destruct (last _); [destruct (decide _)|]; by eexists.
  - simpl. destruct (last _); [destruct (decide _)|]; by eexists.
Qed.

Lemma Forall_removelast {A} (P : A -> Prop) (l : list A) :
  Forall P l -> Forall P (removelast l).
Proof.
  induction 1 as [|x l Hx Hl IH]; simpl; [constructor|].
  destruct l; [constructor | by constructor].
Qed.

Lemma optimize_chunks_good chunks cs :
  Forall good chunks ->
  (optimize_chunks db tokenizer max_tokens chunks).1 = Ok cs ->
  Forall good cs.
Proof.
  intros Hch H. unfold optimize_chunks in H.
  destruct (length chunks <=? 1)%nat; [by injection H as <-|].
  apply bind_Ok_inv in H as ([[chunks' i] optimized] & Hloop & H).
  eapply optimize_loop_good in Hloop as [Hch' Hopt];
    [ | reflexivity | assumption | constructor ].
  simpl in Hch', Hopt.
  apply bind_Ok_inv in H as (optimized' & Happend & H).
  assert (Hopt' : Forall good optimized').
  { destruct (i <? length chunks')%nat; [|by injection Happend as <-].
    destruct (chunks' !! i) as [c|] eqn:Hc; [|discriminate].
    injection Happend as <-. apply Forall_app; split; [assumption|].
    constructor; [|constructor]. exact (Forall_lookup_1 _ _ _ _ Hch' Hc). }
  destruct (last optimized') as [c|]; [|by injection H as <-].
  destruct (decide (strip db (chunk_text c) = [])); injection H as <-;
    [by apply Forall_removelast | assumption].
Qed.
End OptimizerInvariant.

(** Every chunk that [split_text_into_chunks] returns is well formed. *)
Lemma split_text_into_chunks_good db text tokenizer n optimize cs :
  (split_text_into_chunks db text tokenizer (PyInt n) optimize).1 = Ok cs ->
  Forall (good_chunk tokenizer n) cs.
Proof.
  unfold split_text_into_chunks, split_and_optimize.
  destruct (Z.leb_spec n 0) as [Hle|Hpos]; intros H; [discriminate|].
  apply bind_Ok_inv in H as (initial & Hsplit & H).
  apply split_by_weight_good in Hsplit; [|assumption].
  destruct optimize; [|by injection H as <-].
  eapply optimize_chunks_good; eassumption.
Qed.

(** ** Recursion depth of the splitter *)

Section Depth.
Variable db : unicode_db.
Variable tokenizer : tokenizer_obj.
Variable max_tokens : Z.

(** The recursive call is only made when [weight > NO_WEIGHT]: two callees
    that agree there give the same loop and the same tail. *)
Lemma split_body_rec_ext rec rec' text weight i c st :
  (0 < weight -> forall seg start, rec seg start = rec' seg start) ->
  split_body db tokenizer max_tokens rec text weight i c st =
  split_body db tokenizer max_tokens rec' text weight i c st.
Proof.
  intros Hext. unfold split_body.
  destruct (weight <=? get_weight db c); [|reflexivity].
  apply bind_ext. intros tokens.
  destruct (_ <=? _); [reflexivity|].
  destruct (max_tokens <? tokens); simpl; [|reflexivity].
  unfold NO_WEIGHT. destruct (Z.ltb_spec 0 weight); [|reflexivity].
  rewrite Hext by assumption. reflexivity.
Qed.

Lemma split_loop_rec_ext rec rec' text weight rest : forall i st,
  (0 < weight -> forall seg start, rec seg start = rec' seg start) ->
  split_loop db tokenizer max_tokens rec text weight rest i st =
  split_loop db tokenizer max_tokens rec' text weight rest i st.
Proof.
  induction rest as [|c rest IH]; intros i st Hext; simpl; [reflexivity|].
  rewrite (split_body_rec_ext rec rec') by assumption.
  apply bind_ext. intros st'. by apply IH.
Qed.

Lemma split_tail_rec_ext rec rec' text weight st :
  (0 < weight -> forall seg start, rec seg start = rec' seg start) ->
  split_tail tokenizer max_tokens rec text weight st =
  split_tail tokenizer max_tokens rec' text weight st.
Proof.
  intros Hext. unfold split_tail. f_equal.
  destruct (_ <? _)%nat; [|reflexivity].
  apply bind_ext. intros tokens.
  destruct (_ <=? _); [reflexivity|].
  destruct (max_tokens <? tokens); simpl; [|reflexivity].
  unfold NO_WEIGHT. destruct (Z.ltb_spec 0 weight); [|reflexivity].
  rewrite Hext by assumption. reflexivity.
Qed.

(** Any two stack budgets above the tier give the same computation. *)
Lemma split_by_weight_depth_irrel depth : forall depth' text weight start,
  (Z.to_nat weight < depth)%nat -> (Z.to_nat weight < depth')%nat ->
  split_by_weight db tokenizer max_tokens depth text weight start =
  split_by_weight db tokenizer max_tokens depth' text weight start.
Proof.
  induction depth as [|depth IH]; intros depth' text weight start Hd Hd';
    [lia|].
  destruct depth' as [|depth']; [lia|]. simpl.
  assert (Hext : 0 < weight -> forall seg s,
    split_by_weight db tokenizer max_tokens depth seg (weight - 1) s =
    split_by_weight db tokenizer max_tokens depth' seg (weight - 1) s).
  { intros Hw seg s. apply IH; lia. }
  rewrite (split_loop_rec_ext _ _ _ _ _ _ _ Hext).
  apply bind_ext. intros st. by apply split_tail_rec_ext.
Qed.

(** *** The only exception of the splitter *)

Section Errors.
Variable rec : str -> nat -> M (list chunk).
Variables (text : str) (weight : Z).
Hypothesis rec_error : 0 < weight -> forall seg start e,
  (rec seg start).1 = Raised e -> e = ValueError msg_segment.

Lemma split_body_error i c st e :
  (split_body db tokenizer max_tokens rec text weight i c st).1 = Raised e ->
  e = ValueError msg_segment.
Proof.
  unfold split_body. destruct (weight <=? get_weight db c); [|discriminate].
  rewrite fst_bind. simpl. destruct (_ <=? _); [discriminate|].
  destruct (max_tokens <? _); simpl.
  - unfold NO_WEIGHT. destruct (Z.ltb_spec 0 weight) as [Hw|Hw].
    + rewrite fst_bind.
      destruct (rec _ _).1 eqn:Hrec; [discriminate|].
      intros [= <-]. eapply rec_error; eassumption.
    + destruct (_ <=? _); [discriminate | by intros [= <-]].
  - destruct (_ <=? _); [discriminate | by intros [= <-]].
Qed.

Lemma split_body_pos i c st st' :
  weight <= 0 ->
  (split_body db tokenizer max_tokens rec text weight i c st).1 = Ok st' ->
  current_pos st' = (i + 1)%nat.
Proof.
  intros Hw. unfold split_body.
  pose proof (get_weight_range db c).
  destruct (Z.leb_spec weight (get_weight db c)); [|lia].
  rewrite fst_bind. simpl. destruct (_ <=? _); [by intros [= <-]|].
  destruct (_ && _).
  - rewrite fst_bind. destruct (rec _ _).1; [by intros [= <-] | discriminate].
  - destruct (_ <=? _); [by intros [= <-] | discriminate].
Qed.

Lemma split_loop_error rest : forall i st e,
  (split_loop db tokenizer max_tokens rec text weight rest i st).1 = Raised e ->
  e = ValueError msg_segment.
Proof.
  induction rest as [|c rest IH]; intros i st e H; simpl in H; [discriminate|].
  apply bind_Raised_inv in H as [H|(st' & _ & H)]; [|by eapply IH].
  by eapply split_body_error.
Qed.

Lemma split_loop_pos rest : forall i st st',
  weight <= 0 -> current_pos st = i ->
  (split_loop db tokenizer max_tokens rec text weight rest i st).1 = Ok st' ->
  current_pos st' = (i + length rest)%nat.
Proof.
  induction rest as [|c rest IH]; intros i st st' Hw Hpos H; simpl in *.
  - injection H as <-. lia.
  - apply bind_Ok_inv in H as (st1 & Hbody & H).
    apply split_body_pos in Hbody; [|assumption].
    apply IH in H; [lia | assumption | lia].
Qed.

Lemma split_tail_error st e :
  (weight <= 0 -> current_pos st = length text) ->
  (split_tail tokenizer max_tokens rec text weight st).1 = Raised e ->
  e = ValueError msg_segment.
Proof.
  intros Hpos H. unfold split_tail in H.
  apply bind_Raised_inv in H as [H|(st2 & _ & H)];
    [|destruct (nonempty _); discriminate].
  destruct (Nat.ltb_spec (current_pos st) (length text)) as [Hrem|_];
    [|discriminate].
  rewrite fst_bind in H. simpl in H. destruct (_ <=? _); [discriminate|].
  unfold NO_WEIGHT in H. destruct (Z.ltb_spec 0 weight) as [Hw|Hw];
    [|specialize (Hpos Hw); lia].
  destruct (Z.ltb_spec max_tokens
              (token_count tokenizer max_tokens (drop (current_pos st) text)))
    as [Hbig|Hsmall]; simpl in H.
  - rewrite fst_bind in H.
    destruct (rec _ _).1 eqn:Hrec; [discriminate|].
    injection H as <-. eapply rec_error; eassumption.
  - destruct (Z.leb_spec
                (token_count tokenizer max_tokens (drop (current_pos st) text))
                max_tokens); [discriminate | lia].
Qed.
End Errors.
End Depth.

Lemma split_by_weight_error db tokenizer max_tokens depth :
  forall text weight start e,
  (Z.to_nat weight < depth)%nat ->
  (split_by_weight db tokenizer max_tokens depth text weight start).1
    = Raised e ->
  e = ValueError msg_segment.
Proof.
  induction depth as [|depth IH]; intros text weight start e Hd H; [lia|].
  simpl in H.
  assert (Hrec : 0 < weight -> forall seg s e',
    (split_by_weight db tokenizer max_tokens depth seg (weight - 1) s).1
      = Raised e' -> e' = ValueError msg_segment).
  { intros Hw seg s e'. apply IH. lia. }
  apply bind_Raised_inv in H as [H|(st & Hloop & H)].
  - exact (split_loop_error _ _ _ _ _ _ Hrec _ _ _ _ H).
  - refine (split_tail_error _ _ _ _ _ Hrec _ _ _ H).
    intros Hw. eapply split_loop_pos in Hloop; [|assumption|reflexivity].
    exact Hloop.
Qed.

(** ** Text that no tier can place *)

Lemma slice_slice (s : str) a b a' b' :
  (b' <= b - a)%nat ->
  slice (slice s a b) a' b' = slice s (a + a') (a + b').
Proof.
  intros Hb. unfold slice.
  rewrite skipn_firstn_comm, take_take, drop_drop.
  f_equal. lia.
Qed.

Lemma slice_length (s : str) a b :
  (b <= length s)%nat -> length (slice s a b) = (b - a)%nat.
Proof. intros Hb. unfold slice. rewrite length_take, length_drop. lia. Qed.

Lemma slice_to_end (s : str) a : slice s a (length s) = drop a s.
Proof. unfold slice. apply take_ge. rewrite length_drop. lia. Qed.

Section Unsplittable.
Variable db : unicode_db.
Variable tokenizer : tokenizer_obj.
Variable max_tokens : Z.

Local Abbreviation count := (token_count tokenizer max_tokens).
Local Abbreviation hard_at := (unsplittable_at tokenizer max_tokens).

Lemma unsplittable_at_slice text k a b :
  hard_at text k -> (a <= k < b)%nat -> (b <= length text)%nat ->
  hard_at (slice text a b) (k - a).
Proof.
  intros [Hk Hall] Hab Hb. split; [rewrite slice_length; lia|].
  intros a' b' Hk' Hb'. rewrite slice_length in Hb' by assumption.
  rewrite slice_slice by assumption. apply Hall; lia.
Qed.

Section StuckBody.
Variable rec : str -> nat -> M (list chunk).
Hypothesis rec_raises : forall seg start k,
  hard_at seg k -> exists e, (rec seg start).1 = Raised e.
Variables (text : str) (weight : Z) (k : nat).
Hypothesis hard : hard_at text k.

Local Abbreviation stuck := (stuck_inv k).

Lemma split_body_stuck i c st :
  (i < length text)%nat -> stuck st ->
  match (split_body db tokenizer max_tokens rec text weight i c st).1 with
  | Ok st' => stuck st'
  | Raised _ => True
  end.
Proof.
  intros Hi [Hpos Htok]. unfold split_body.
  destruct (weight <=? get_weight db c); [|by split].
  rewrite fst_bind. simpl.
  set (segment := slice text (current_pos st) (i + 1)).
  pose proof (token_count_nonneg tokenizer max_tokens segment) as Hseg.
  destruct (Z.leb_spec (current_chunk_tokens st + count segment) max_tokens)
    as [Hfit|Hover].
  { (* the segment fits, so it ends before position [k] *)
    split; simpl; [|lia].
    destruct (decide (i < k)%nat) as [|Hik]; [lia|]. exfalso.
    destruct hard as [_ Hall].
    specialize (Hall (current_pos st) (i + 1)%nat). fold segment in Hall. lia. }
  set (st1 := if nonempty (current_chunk st) then _ else st).
  destruct (Z.ltb_spec max_tokens (count segment)) as [Hbig|Hsmall]; simpl.
  - destruct (decide (i < k)%nat) as [Hik|Hik].
    + destruct (NO_WEIGHT <? weight).
      * rewrite fst_bind. destruct (rec _ _).1; [|exact I].
        split; simpl; [lia|].
        subst st1. destruct (nonempty _); simpl; lia.
      * destruct (Z.leb_spec (count segment) max_tokens); [lia | exact I].
    + destruct (NO_WEIGHT <? weight).
      * rewrite fst_bind.
        destruct (rec_raises segment (current_chunk_start st1)
                    (k - current_pos st)%nat) as [e ->]; [|exact I].
        apply unsplittable_at_slice; [assumption | lia | lia].
      * destruct (Z.leb_spec (count segment) max_tokens); [lia | exact I].
  - destruct (Z.leb_spec (count segment) max_tokens); [|lia].
    split; simpl; [|lia].
    destruct (decide (i < k)%nat) as [|Hik]; [lia|]. exfalso.
    destruct hard as [_ Hall].
    specialize (Hall (current_pos st) (i + 1)%nat). fold segment in Hall. lia.
Qed.

Lemma split_loop_stuck rest : forall i st,
  length text = (i + length rest)%nat -> stuck st ->
  match (split_loop db tokenizer max_tokens rec text weight rest i st).1 with
  | Ok st' => stuck st'
  | Raised _ => True
  end.
Proof.
  induction rest as [|c rest IH]; intros i st Hlen Hinv; simpl;
    [assumption|].
  rewrite fst_bind. simpl in Hlen.
  pose proof (split_body_stuck i c st ltac:(lia) Hinv) as Hbody.
  destruct (split_body _ _ _ _ _ _ _ _ _).1 as [st1|e]; [|exact I].
  apply IH; [lia | assumption].
Qed.

Lemma split_tail_stuck st :
  stuck st ->
  exists e, (split_tail tokenizer max_tokens rec text weight st).1 = Raised e.
Proof.
  intros [Hpos Htok]. destruct hard as [Hk Hall]. unfold split_tail.
  rewrite fst_bind.
  destruct (Nat.ltb_spec (current_pos st) (length text)) as [_|Hbad]; [|lia].
  rewrite fst_bind. simpl.
  set (remaining := drop (current_pos st) text).
  assert (Hbig : max_tokens < count remaining).
  { subst remaining. rewrite <- slice_to_end. apply Hall; lia. }
  destruct (Z.leb_spec (current_chunk_tokens st + count remaining) max_tokens);
    [lia|].
  destruct (max_tokens <? count remaining) eqn:Hlt; [|lia]. simpl.
  set (st1 := if nonempty (current_chunk st) then _ else st).
  destruct (NO_WEIGHT <? weight).
  - rewrite fst_bind.
    destruct (rec_raises remaining (current_chunk_start st1)
                (k - current_pos st)%nat) as [e ->]; [|eauto].
    subst remaining. rewrite <- slice_to_end.
    apply unsplittable_at_slice; [assumption | lia | lia].
  - destruct (Z.leb_spec (count remaining) max_tokens); [lia | eauto].
Qed.
End StuckBody.

Lemma split_by_weight_stuck depth : forall text weight start k,
  hard_at text k ->
  exists e,
    (split_by_weight db tokenizer max_tokens depth text weight start).1
      = Raised e.
Proof.
  induction depth as [|depth IH]; intros text weight start k Hhard; simpl;
    [eauto|].
  rewrite fst_bind.
  pose proof (split_loop_stuck
    (fun seg s => split_by_weight db tokenizer max_tokens depth seg (weight - 1) s)
    ltac:(intros; eapply IH; eassumption)
    text weight k Hhard text 0 (split_init start) eq_refl) as Hloop.
  destruct (split_loop _ _ _ _ _ _ _ _ _).1 as [st|e]; [|eauto].
  eapply split_tail_stuck; [ | eassumption | ].
  - intros; eapply IH; eassumption.
  - apply Hloop. split; simpl; lia.
Qed.
End Unsplittable.

(** ** A text whose units fit together *)

Lemma slice_snoc (s : str) a i c :
  s !! i = Some c -> (a <= i)%nat -> slice s a (i + 1) = slice s a i ++ [c].
Proof.
  intros Hc Ha. unfold slice.
  replace (i + 1 - a)%nat with (S (i - a)) by lia.
  apply take_S_r. rewrite lookup_drop. rewrite <- Hc. f_equal. lia.
Qed.

Lemma slice_empty (s : str) a : slice s a a = [].
Proof. unfold slice. by rewrite Nat.sub_diag. Qed.

Lemma drop_cons_inv (s : str) i c rest :
  drop i s = c :: rest -> s !! i = Some c /\ drop (S i) s = rest.
Proof.
  intros Hd. split.
  - pose proof (lookup_drop s i 0) as H0.
    rewrite Nat.add_0_r, Hd in H0. by symmetry.
  - pose proof (drop_drop s 1 i) as H1.
    rewrite Hd, Nat.add_1_r in H1. by symmetry.
Qed.

Lemma concat_units_from db weight rest : forall pending,
  concat (units_from db weight pending rest) = pending ++ rest.
Proof.
  induction rest as [|c rest IH]; intros pending; simpl.
  - destruct pending; reflexivity.
  - destruct (weight <=? get_weight db c); simpl; rewrite IH;
      by rewrite <- app_assoc.
Qed.

Section SingleChunk.
Variable db : unicode_db.
Variable tokenizer : tokenizer_obj.
Variable max_tokens : Z.
Variable rec : str -> nat -> M (list chunk).
Variables (text : str) (weight : Z).

Local Abbreviation total := (seg_sum tokenizer max_tokens).
Local Abbreviation one_chunk := (single_chunk tokenizer max_tokens).

Lemma split_rest_single rest : forall i st,
  drop i text = rest -> (current_pos st <= i)%nat ->
  chunks st = [] -> current_chunk_tokens st = total (current_chunk st) ->
  total (current_chunk st)
    + total (units_from db weight (slice text (current_pos st) i) rest)
    <= max_tokens ->
  bind (split_loop db tokenizer max_tokens rec text weight rest i st)
       (split_tail tokenizer max_tokens rec text weight) =
  (Ok (one_chunk (current_chunk_start st)
         (current_chunk st
            ++ units_from db weight (slice text (current_pos st) i) rest)),
   units_from db weight (slice text (current_pos st) i) rest).
Proof.
  induction rest as [|c rest IH]; intros i st Hdrop Hpos Hch Htok Hfit.
  - (* after the loop: the pending text, if any, is the remaining text *)
    simpl split_loop. rewrite bind_ret_l.
    assert (Hlen : (length text <= i)%nat).
    { apply (f_equal length) in Hdrop. rewrite length_drop in Hdrop.
      simpl in Hdrop. lia. }
    assert (Hpend : slice text (current_pos st) i = drop (current_pos st) text).
    { unfold slice. apply take_ge. rewrite length_drop. lia. }
    rewrite Hpend in *. unfold split_tail, single_chunk. simpl units_from in *.
    destruct (Nat.ltb_spec (current_pos st) (length text)) as [Hrem|Hnone].
    + destruct (drop (current_pos st) text) as [|c0 rem] eqn:Hrem'.
      { apply (f_equal length) in Hrem'. rewrite length_drop in Hrem'.
        simpl in Hrem'. lia. }
      simpl nonempty in *. simpl in Hfit.
      unfold get_token_count. rewrite bind_Ok. cbn [fst snd].
      destruct (Z.leb_spec
                  (current_chunk_tokens st + token_count tokenizer max_tokens
                                               (c0 :: rem)) max_tokens);
        [|lia].
      unfold ret. cbn [fst snd]. rewrite bind_Ok.
      cbn [current_chunk current_chunk_tokens chunks current_chunk_start].
      rewrite !nonempty_snoc. cbn [fst snd].
      rewrite seg_sum_app, Hch, Htok. simpl. by rewrite Z.add_0_r.
    + destruct (drop (current_pos st) text) as [|c0 rem] eqn:Hrem'.
      2:{ apply (f_equal length) in Hrem'. rewrite length_drop in Hrem'.
          simpl in Hrem'. lia. }
      simpl. rewrite bind_ret_l, app_nil_r, Hch, Htok.
      by destruct (nonempty (current_chunk st)).
  - apply drop_cons_inv in Hdrop as [Hc Hdrop].
    simpl split_loop. rewrite bind_assoc. simpl units_from in *.
    unfold split_body.
    destruct (weight <=? get_weight db c).
    + rewrite <- (slice_snoc _ _ _ _ Hc Hpos) in *.
      set (segment := slice text (current_pos st) (i + 1)) in *.
      simpl in Hfit.
      pose proof (seg_sum_nonneg tokenizer max_tokens
                    (units_from db weight [] rest)).
      unfold get_token_count. rewrite bind_assoc, bind_Ok. cbn [fst snd].
      destruct (Z.leb_spec
                  (current_chunk_tokens st
                     + token_count tokenizer max_tokens segment) max_tokens);
        [|lia].
      rewrite bind_ret_l.
      rewrite (IH (S i)); cbn [current_chunk current_chunk_tokens chunks
                                 current_chunk_start current_pos].
      * rewrite Nat.add_1_r, slice_empty, <- app_assoc. reflexivity.
      * assumption.
      * lia.
      * assumption.
      * rewrite seg_sum_app, Htok. simpl. lia.
      * rewrite Nat.add_1_r, slice_empty, seg_sum_app. simpl. lia.
    + rewrite bind_ret_l.
      rewrite (IH (S i)); try assumption; try lia;
        rewrite <- Nat.add_1_r, (slice_snoc _ _ _ _ Hc Hpos);
        [reflexivity | assumption].
Qed.
End SingleChunk.

Lemma split_by_weight_single db tokenizer max_tokens depth text weight start :
  seg_sum tokenizer max_tokens (units db weight text) <= max_tokens ->
  split_by_weight db tokenizer max_tokens (S depth) text weight start =
  (Ok (single_chunk tokenizer max_tokens start (units db weight text)),
   units db weight text).
Proof.
  intros Hfit. simpl split_by_weight.
  rewrite (split_rest_single db tokenizer max_tokens _ text weight text 0
             (split_init start)); simpl; rewrite ?slice_empty;
    (reflexivity || lia || assumption).
Qed.

(** ** Special cases of the hypotheses used below *)

Lemma units_nonempty db weight text : text <> [] -> units db weight text <> [].
Proof.
  intros Hne Hnil. apply Hne.
  pose proof (concat_units_from db weight text []) as Hcat.
  unfold units in Hnil. rewrite Hnil in Hcat. by symmetry.
Qed.

(** A text without a separator of the tier is its own single unit. *)
Lemma units_from_no_separator db weight rest : forall pending,
  Forall (fun c => get_weight db c < weight) rest -> pending ++ rest <> [] ->
  units_from db weight pending rest = [pending ++ rest].
Proof.
  induction rest as [|c rest IH]; intros pending Hall Hne; simpl.
  - rewrite app_nil_r in *. by destruct pending.
  - apply Forall_cons in Hall as [Hc Hall].
    destruct (Z.leb_spec weight (get_weight db c)); [lia|].
    rewrite IH, <- app_assoc; [reflexivity | assumption |].
    rewrite <- app_assoc. by destruct pending.
Qed.

(** A text of one character whose count exceeds the budget cannot be placed. *)
Lemma unsplittable_single_char tokenizer max_tokens (c : char) :
  max_tokens < token_count tokenizer max_tokens [c] ->
  unsplittable_at tokenizer max_tokens [c] 0.
Proof.
  intros Hbig. split; [simpl; lia|]. intros a b Hab Hb. simpl in Hb.
  assert (a = 0%nat) as -> by lia. assert (b = 1%nat) as -> by lia.
  exact Hbig.
Qed.

(** With a counter that never decreases when a span is extended, any
    character whose own count exceeds the budget cannot be placed. *)
Lemma unsplittable_monotone tokenizer max_tokens (text : str) k c :
  (forall l s r, token_count tokenizer max_tokens s
                 <= token_count tokenizer max_tokens (l ++ s ++ r)) ->
  text !! k = Some c -> max_tokens < token_count tokenizer max_tokens [c] ->
  unsplittable_at tokenizer max_tokens text k.
Proof.
  intros Hmono Hc Hbig. pose proof (lookup_lt_Some _ _ _ Hc) as Hk.
  split; [assumption|]. intros a b Hab Hb.
  assert (Hsplit : slice text a b =
            slice text a k ++ [c] ++ slice text (k + 1) b).
  { unfold slice.
    rewrite <- (take_drop (k - a) (take (b - a) (drop a text))).
    rewrite take_take, Nat.min_l by lia. f_equal.
    rewrite skipn_firstn_comm, drop_drop.
    replace (a + (k - a))%nat with k by lia.
    rewrite (drop_S _ _ _ Hc).
    replace (b - a - (k - a))%nat with (S (b - (k + 1))) by lia.
    simpl. by rewrite Nat.add_1_r. }
  rewrite Hsplit. specialize (Hmono (slice text a k) [c] (slice text (k + 1) b)).
  lia.
Qed.

(** ** The outcomes of a call

    A call returns a chunk list or raises one of the module's two
    [ValueError]s; the index and recursion errors of the model never occur. *)
Lemma split_text_into_chunks_outcome db text tokenizer max_tokens optimize :
  (exists cs,
     (split_text_into_chunks db text tokenizer max_tokens optimize).1 = Ok cs)
  \/ (split_text_into_chunks db text tokenizer max_tokens optimize).1
       = Raised (ValueError msg_max_tokens)
  \/ (split_text_into_chunks db text tokenizer max_tokens optimize).1
       = Raised (ValueError msg_segment).
Proof.
  unfold split_text_into_chunks, split_and_optimize.
  destruct max_tokens as [n|]; [|auto].
  destruct (n <=? 0); [auto|]. rewrite fst_bind.
  destruct (split_by_weight db tokenizer n recursion_limit text
              PARAGRAPH_SEPARATOR_WEIGHT 0).1 as [initial|e] eqn:Hsplit.
  - left. destruct optimize; [apply optimize_chunks_total | by eexists].
  - right. right. f_equal. eapply split_by_weight_error; [|exact Hsplit].
    apply Nat.ltb_lt. reflexivity.
Qed.

(** ** The properties of [split_text_into_chunks] *)

(** C1. Every chunk that [split_text_into_chunks] returns has a
    [token_count] of at most [max_tokens], for every text, tokenizer and
    value of [optimize] (a call that returns has a positive [max_tokens]). *)
Theorem chunk_tokens_within_budget db text tokenizer n optimize cs :
  (split_text_into_chunks db text tokenizer (PyInt n) optimize).1 = Ok cs ->
  Forall (fun c => chunk_tokens c <= n) cs.
Proof.
  intros H. apply split_text_into_chunks_good in H.
  eapply Forall_impl; [exact H|]. by intros c [Hle _].
Qed.

Lemma chunk_tokens_within_budget_witness :
  Forall (fun c => chunk_tokens c <= 6)
    [(0%nat, [97; 10]%N, 4); (2%nat, [98; 10]%N, 4)].
Proof.
  apply (chunk_tokens_within_budget latin1_db text_a_nl_b_nl framed_tokenizer
           6 false).
  vm_compute. reflexivity.
Defined.

(** C2, as stated, fails: with a tokenizer that frames every encoding with
    two special tokens and [max_tokens = 8], the text "a\nb\n" comes back as
    one chunk whose [token_count] is 8, the sum of the counts of "a\n" and
    "b\n", while the counter gives 6 on the chunk's text. *)
Lemma chunk_tokens_not_recounted :
  (split_text_into_chunks latin1_db text_a_nl_b_nl framed_tokenizer
     (PyInt 8) true).1 = Ok [(0%nat, text_a_nl_b_nl, 8)] /\
  (split_text_into_chunks latin1_db text_a_nl_b_nl framed_tokenizer
     (PyInt 8) false).1 = Ok [(0%nat, text_a_nl_b_nl, 8)] /\
  token_count framed_tokenizer 8 text_a_nl_b_nl = 6 /\
  ~ Forall (fun c => chunk_tokens c
                     = token_count framed_tokenizer 8 (chunk_text c))
      [(0%nat, text_a_nl_b_nl, 8)].
Proof.
  split_and!; try (vm_compute; reflexivity).
  intros H. apply Forall_cons in H as [H _]. vm_compute in H. discriminate.
Qed.

(** C3, evaluated where it fails. On "One. Two" with one token per character
    and [max_tokens = 5] the chunk "One." is returned twice: without the
    optimizer the offsets are 0, 4, 4, neither increasing nor contiguous;
    with it they are 0, 4, 8 and the texts add up to twelve characters of an
    eight-character input. *)
Theorem offsets_one_two :
  split_by_weight latin1_db char_tokenizer 5 recursion_limit text_one_two
    PARAGRAPH_SEPARATOR_WEIGHT 0 =
  (Ok [(0%nat, [79; 110; 101; 46]%N, 4); (4%nat, [32; 84; 119; 111]%N, 4);
       (4%nat, [79; 110; 101; 46]%N, 4)],
   [text_one_two; [79; 110; 101; 46]%N; [32; 84; 119; 111]%N]) /\
  (split_text_into_chunks latin1_db text_one_two char_tokenizer
     (PyInt 5) false).1 =
  Ok [(0%nat, [79; 110; 101; 46]%N, 4); (4%nat, [32; 84; 119; 111]%N, 4);
      (4%nat, [79; 110; 101; 46]%N, 4)] /\
  (split_text_into_chunks latin1_db text_one_two char_tokenizer
     (PyInt 5) true).1 =
  Ok [(0%nat, [79; 110; 101; 46]%N, 4); (4%nat, [32; 84; 119; 111]%N, 4);
      (8%nat, [79; 110; 101; 46]%N, 4)].
Proof. split_and!; vm_compute; reflexivity. Qed.

(** C4, evaluated where it fails. On "a\nbb" with one token per character,
    [max_tokens = 2] and [optimize = false], the chunk texts concatenate to
    "a\nbba\n", not to the input. *)
Theorem concatenation_a_nl_bb :
  (split_text_into_chunks latin1_db text_a_nl_bb char_tokenizer
     (PyInt 2) false).1 =
  Ok [(0%nat, [97; 10]%N, 2); (2%nat, [98; 98]%N, 2); (2%nat, [97; 10]%N, 2)] /\
  concat (map chunk_text
    [(0%nat, [97; 10]%N, 2); (2%nat, [98; 98]%N, 2); (2%nat, [97; 10]%N, 2)])
  = [97; 10; 98; 98; 97; 10]%N /\
  [97; 10; 98; 98; 97; 10]%N <> text_a_nl_bb.
Proof. split_and!; [vm_compute; reflexivity | reflexivity | discriminate]. Qed.

(** C5, as stated, fails twice. The empty text has a count within the budget
    and yields no chunk at all; and with the framing tokenizer and
    [max_tokens = 8] the text "\n\n\n\n\na" counts 8 as a whole, yet its six
    one-character units count 3 each and two chunks come back, with the
    optimizer on. *)
Lemma whole_text_fits_yet_not_one_chunk :
  token_count char_tokenizer 4 [] <= 4 /\
  split_text_into_chunks latin1_db [] char_tokenizer (PyInt 4) true
    = (Ok [], []) /\
  token_count framed_tokenizer 8 text_5nl_a <= 8 /\
  (split_text_into_chunks latin1_db text_5nl_a framed_tokenizer
     (PyInt 8) true).1 =
  Ok [(0%nat, [10; 10; 10; 10]%N, 6); (4%nat, [10; 97]%N, 6)].
Proof. split_and!; vm_compute; (reflexivity || discriminate). Qed.

(** C5, amended. For a non-empty text whose paragraph-level units (each run
    of characters up to and including a paragraph separator, and the text
    after the last one) have counts that sum to at most [max_tokens], the
    result is exactly one chunk: offset 0, the entire text, that sum; the
    counter is called once per unit. *)
Theorem one_chunk_when_units_fit db text tokenizer n optimize :
  text <> [] -> 0 < n ->
  seg_sum tokenizer n (units db PARAGRAPH_SEPARATOR_WEIGHT text) <= n ->
  split_text_into_chunks db text tokenizer (PyInt n) optimize =
  (Ok [(0%nat, text,
        seg_sum tokenizer n (units db PARAGRAPH_SEPARATOR_WEIGHT text))],
   units db PARAGRAPH_SEPARATOR_WEIGHT text).
Proof.
  intros Hne Hpos Hfit. unfold split_text_into_chunks, split_and_optimize.
  destruct (Z.leb_spec n 0) as [|_]; [lia|].
  change recursion_limit with (S 999).
  rewrite split_by_weight_single by assumption. rewrite bind_Ok.
  unfold single_chunk.
  pose proof (units_nonempty db PARAGRAPH_SEPARATOR_WEIGHT text Hne) as Hu.
  apply nonempty_true in Hu. rewrite Hu.
  pose proof (concat_units_from db PARAGRAPH_SEPARATOR_WEIGHT text []) as Hcat.
  fold (units db PARAGRAPH_SEPARATOR_WEIGHT text) in Hcat. rewrite Hcat.
  destruct optimize; simpl; by rewrite app_nil_r.
Qed.

Lemma one_chunk_when_units_fit_witness :
  split_text_into_chunks latin1_db text_a_nl_b_nl framed_tokenizer
    (PyInt 8) true =
  (Ok [(0%nat, text_a_nl_b_nl,
        seg_sum framed_tokenizer 8
          (units latin1_db PARAGRAPH_SEPARATOR_WEIGHT text_a_nl_b_nl))],
   units latin1_db PARAGRAPH_SEPARATOR_WEIGHT text_a_nl_b_nl).
Proof.
  apply (one_chunk_when_units_fit latin1_db text_a_nl_b_nl framed_tokenizer
           8 true).
  - discriminate.
  - lia.
  - vm_compute. discriminate.
Defined.

(** C6, as stated, fails: the text "ab" holds the character "a", whose own
    count is 3 under a tokenizer that knows the pair "ab" as one token, above
    [max_tokens = 2]; the call returns the one chunk "ab" and raises
    nothing. *)
Lemma oversized_character_not_fatal :
  In 97%N text_ab /\
  2 < token_count pair_tokenizer 2 [97%N] /\
  (split_text_into_chunks latin1_db text_ab pair_tokenizer (PyInt 2) true).1
    = Ok [(0%nat, text_ab, 1)] /\
  (split_text_into_chunks latin1_db text_ab pair_tokenizer (PyInt 2) false).1
    = Ok [(0%nat, text_ab, 1)].
Proof.
  split_and!; [by left | vm_compute; reflexivity | vm_compute; reflexivity
              | vm_compute; reflexivity].
Qed.

(** C6, amended. If the text has a position such that every span of the text
    that holds it has a count above [max_tokens], the call raises the
    [ValueError] "Cannot split segment within token limit" and returns no
    chunk sequence. (A one-character text whose count exceeds the budget is
    such a text, and so is any text with such a character when the counter
    never decreases as a span grows.) *)
Theorem unplaceable_text_raises db text tokenizer n optimize k :
  0 < n -> unsplittable_at tokenizer n text k ->
  (split_text_into_chunks db text tokenizer (PyInt n) optimize).1
    = Raised (ValueError msg_segment).
Proof.
  intros Hpos Hhard. unfold split_text_into_chunks, split_and_optimize.
  destruct (Z.leb_spec n 0) as [|_]; [lia|]. rewrite fst_bind.
  destruct (split_by_weight_stuck db tokenizer n recursion_limit text
              PARAGRAPH_SEPARATOR_WEIGHT 0 k Hhard) as [e He].
  rewrite He. f_equal.
  eapply split_by_weight_error; [|exact He].
  apply Nat.ltb_lt. reflexivity.
Qed.

Lemma unplaceable_text_raises_witness :
  (split_text_into_chunks latin1_db text_a pair_tokenizer (PyInt 2) true).1
    = Raised (ValueError msg_segment).
Proof.
  apply (unplaceable_text_raises latin1_db text_a pair_tokenizer 2 true 0).
  - lia.
  - apply unsplittable_single_char. vm_compute. reflexivity.
Defined.

(** C7, evaluated where it fails. On "A. Bcd" with one token per character
    and [max_tokens = 5] the optimizer comes to the pair " Bcd", "A.", whose
    six tokens exceed the budget. The split just after the first character of
    " Bcd", the space of weight 1, is valid: it leaves " " with one token and
    "BcdA." with five. The scan stops at index 1 and never proposes it: the
    split adopted is the one after "d", of weight 0, and the call returns
    "A.", " Bcd", "A." at offsets 0, 2 and 6. *)
Theorem first_character_never_proposed :
  text_sp_bcd !! 0%nat = Some 32%N /\
  get_weight latin1_db 32%N = 1 /\
  valid_split char_tokenizer 5 text_sp_bcd text_a_dot 1 /\
  (find_split latin1_db char_tokenizer 5 text_sp_bcd text_a_dot).1
    = Ok (Some 4%nat, 0) /\
  (split_text_into_chunks latin1_db text_a_dot_bcd char_tokenizer
     (PyInt 5) true).1
    = Ok [(0%nat, text_a_dot, 2); (2%nat, text_sp_bcd, 4);
          (6%nat, text_a_dot, 2)].
Proof.
  split_and!; try (vm_compute; reflexivity).
  split; vm_compute; discriminate.
Qed.

(** C7, amended. In the optimizer's redistribution the scan visits the
    indices of [current_text] from the last down to index 1; index 0, the
    first character, is not visited. At index [j] it adopts the
    split just after [j] exactly when the weight of the character there is
    strictly greater than the last adopted weight (initially -1, below every
    weight) and both resulting spans fit the budget. Hence the position
    adopted in the end is the split after the rightmost index among the
    valid ones of the highest weight, taken over the indices from 1 on, and
    none is adopted exactly when no such index gives a valid split. *)
Theorem redistribution_split_rule db tokenizer max_tokens
    (current_text next_text : str) :
  (forall best j c, current_text !! j = Some c ->
     (scan_body db tokenizer max_tokens current_text next_text best j).1 =
     Ok (if (best.2 <? get_weight db c)
            && valid_splitb tokenizer max_tokens current_text next_text (j + 1)
         then (Some (j + 1)%nat, get_weight db c) else best)) /\
  exists best,
    (find_split db tokenizer max_tokens current_text next_text).1 = Ok best /\
    match best.1 with
    | None =>
        best.2 = -1 /\
        forall j, (0 < j < length current_text)%nat ->
          ~ valid_split tokenizer max_tokens current_text next_text (j + 1)
    | Some p =>
        exists j c,
          p = (j + 1)%nat /\ (0 < j < length current_text)%nat /\
          current_text !! j = Some c /\ best.2 = get_weight db c /\
          valid_split tokenizer max_tokens current_text next_text p /\
          forall j' c', (0 < j' < length current_text)%nat ->
            current_text !! j' = Some c' ->
            valid_split tokenizer max_tokens current_text next_text (j' + 1) ->
            get_weight db c' < get_weight db c \/
            (get_weight db c' = get_weight db c /\ (j' <= j)%nat)
    end.
Proof.
  split.
  - intros best j c Hc. by apply scan_body_step.
  - exact (find_split_post db tokenizer max_tokens current_text next_text).
Qed.

Lemma redistribution_split_rule_witness :
  exists best,
    (find_split latin1_db char_tokenizer 6 text_hi_o_a text_ab).1 = Ok best.
Proof.
  destruct (redistribution_split_rule latin1_db char_tokenizer 6
              text_hi_o_a text_ab) as [_ (best & Hbest & _)].
  exists best. exact Hbest.
Defined.

(** The scan of "Hi. o. a" before "ab" with a budget of 6: the split after
    the second full stop (index 5) is adopted, and the earlier full stop, of
    equal weight, does not displace it. *)
Example find_split_hi_o_a :
  (find_split latin1_db char_tokenizer 6 text_hi_o_a text_ab).1
    = Ok (Some 6%nat, 3).
Proof. vm_compute. reflexivity. Qed.

(** C8. When [max_tokens] is not a positive integer the call raises the
    [ValueError] "max_tokens must be a positive integer" at once: no chunk
    is produced and the tokenizer is never called. *)
Theorem max_tokens_rejected db text tokenizer max_tokens optimize :
  ~ positive_int max_tokens ->
  split_text_into_chunks db text tokenizer max_tokens optimize =
  (Raised (ValueError msg_max_tokens), []).
Proof.
  intros Hbad. unfold split_text_into_chunks.
  destruct max_tokens as [n|]; [|reflexivity].
  destruct (Z.leb_spec n 0) as [|Hpos]; [reflexivity|].
  exfalso. apply Hbad. exact Hpos.
Qed.

Lemma max_tokens_rejected_witness :
  split_text_into_chunks latin1_db text_one_two char_tokenizer (PyInt 0) true =
  (Raised (ValueError msg_max_tokens), []).
Proof.
  apply (max_tokens_rejected latin1_db text_one_two char_tokenizer (PyInt 0)
           true).
  simpl. lia.
Defined.

(** C9. The splitter terminates within [weight + 1] nested calls: with any
    stack budget above the tier it computes what it computes with exactly
    [weight + 1] frames (5 for the initial tier 4), and the result is either
    a chunk list or the splitter's own [ValueError], never a
    [RecursionError]. *)
Theorem split_by_weight_terminates db tokenizer max_tokens depth text weight
    start :
  (Z.to_nat weight < depth)%nat ->
  split_by_weight db tokenizer max_tokens depth text weight start =
  split_by_weight db tokenizer max_tokens (S (Z.to_nat weight)) text weight
    start /\
  ((exists cs,
      (split_by_weight db tokenizer max_tokens depth text weight start).1
        = Ok cs) \/
   (split_by_weight db tokenizer max_tokens depth text weight start).1
     = Raised (ValueError msg_segment)).
Proof.
  intros Hd. split; [apply split_by_weight_depth_irrel; lia|].
  destruct (split_by_weight db tokenizer max_tokens depth text weight start).1
    as [cs|e] eqn:Hres; [eauto|].
  right. f_equal. eapply split_by_weight_error; eassumption.
Qed.

Lemma split_by_weight_terminates_witness :
  split_by_weight latin1_db char_tokenizer 5 recursion_limit text_one_two
    PARAGRAPH_SEPARATOR_WEIGHT 0 =
  split_by_weight latin1_db char_tokenizer 5 5 text_one_two
    PARAGRAPH_SEPARATOR_WEIGHT 0.
Proof.
  apply (split_by_weight_terminates latin1_db char_tokenizer 5 recursion_limit
           text_one_two PARAGRAPH_SEPARATOR_WEIGHT 0).
  vm_compute. lia.
Defined.

(** Five frames are needed: with four, an unplaceable character at tier 4
    exhausts the stack before the lowest tier is reached. *)
Example split_by_weight_four_frames :
  (split_by_weight latin1_db pair_tokenizer 2 4 text_a
     PARAGRAPH_SEPARATOR_WEIGHT 0).1 = Raised RecursionError /\
  (split_by_weight latin1_db pair_tokenizer 2 5 text_a
     PARAGRAPH_SEPARATOR_WEIGHT 0).1 = Raised (ValueError msg_segment).
Proof. split; vm_compute; reflexivity. Qed.

(** C10. On the empty text, with a positive [max_tokens], the call returns
    the empty sequence, raises nothing and never calls the tokenizer, for
    both values of [optimize]. *)
Theorem empty_text_no_chunks db tokenizer n optimize :
  0 < n ->
  split_text_into_chunks db [] tokenizer (PyInt n) optimize = (Ok [], []).
Proof.
  intros Hpos. unfold split_text_into_chunks, split_and_optimize.
  destruct (Z.leb_spec n 0) as [|_]; [lia|].
  destruct optimize; reflexivity.
Qed.

Lemma empty_text_no_chunks_witness :
  split_text_into_chunks latin1_db [] framed_tokenizer (PyInt 8) true
    = (Ok [], []).
Proof.
  apply (empty_text_no_chunks latin1_db framed_tokenizer 8 true). lia.
Defined.

(** ** The optimizer as a rewriting of the chunk list

    At every turn of its loop the optimizer holds the chunks already
    finalized and the chunks not yet visited; together they form a list that
    each turn rewrites in one place, by a merge of two neighbours or by moving
    a suffix of one chunk to the front of the next. *)

Section OptimizerView.
Variable db : unicode_db.
Variable tokenizer : tokenizer_obj.
Variable max_tokens : Z.
Variable P : list chunk -> Prop.
Hypothesis P_merge : forall pre s1 t1 n1 s2 t2 n2 rest n,
  P (pre ++ (s1, t1, n1) :: (s2, t2, n2) :: rest) ->
  P (pre ++ (s1, t1 ++ t2, n) :: rest).
Hypothesis P_move : forall pre s1 t1 n1 s2 t2 n2 rest p n n',
  (0 < p <= length t1)%nat ->
  P (pre ++ (s1, t1, n1) :: (s2, t2, n2) :: rest) ->
  P (pre ++ (s1, take p t1, n) :: ((s1 + p)%nat, drop p t1 ++ t2, n') :: rest).

Lemma drop_two {A} (l : list A) i c1 c2 :
  l !! i = Some c1 -> l !! (i + 1)%nat = Some c2 ->
  drop i l = c1 :: c2 :: drop (i + 2) l.
Proof.
  intros H1 H2. rewrite (drop_S _ _ _ H1). f_equal.
  rewrite <- Nat.add_1_r, (drop_S _ _ _ H2). do 2 f_equal. lia.
Qed.

Lemma drop_next {A} (l : list A) i c :
  l !! (i + 1)%nat = Some c -> drop (i + 1) l = c :: drop (i + 2) l.
Proof. intros H. rewrite (drop_S _ _ _ H). do 2 f_equal. lia. Qed.

Lemma drop_insert_next {A} (l : list A) i c x :
  l !! (i + 1)%nat = Some c ->
  drop (i + 1) (<[(i + 1)%nat := x]> l) = x :: drop (i + 2) l.
Proof.
  intros H. rewrite drop_insert_ge by lia. rewrite Nat.sub_diag.
  by rewrite (drop_next _ _ _ H).
Qed.

Lemma optimize_loop_view n : forall chunks i optimized res,
  (length chunks - i <= n)%nat ->
  P (optimized ++ drop i chunks) ->
  (optimize_loop db tokenizer max_tokens chunks i optimized).1 = Ok res ->
  P (res.2 ++ drop res.1.2 res.1.1).
Proof.
  induction n as [|n IH]; intros chunks i optimized res Hn HP H;
    rewrite optimize_loop_once in H;
    destruct (lt_dec i (length chunks - 1)) as [Hlt|Hge];
    try (injection H as <-; exact HP); [lia|].
  destruct (chunks !! i) as [[[cs ct] ctok]|] eqn:Hcur; [|discriminate].
  destruct (chunks !! (i + 1)%nat) as [[[ns nt] ntok]|] eqn:Hnext;
    [|discriminate].
  pose proof (drop_two chunks i _ _ Hcur Hnext) as Hview.
  rewrite Hview in HP.
  cbv zeta in H. rewrite fst_bind in H. simpl in H.
  destruct (_ <=? _).
  { apply IH in H; [assumption | lia |].
    rewrite <- app_assoc. simpl. eapply P_merge. exact HP. }
  apply bind_Ok_inv in H as (best & Hfind & H).
  destruct best.1 as [p|] eqn:Hbest.
  - destruct (find_split_valid _ _ _ _ _ _ _ Hfind Hbest) as [_ Hp].
    rewrite !fst_bind in H. simpl in H.
    apply IH in H; [assumption | rewrite length_insert; lia |].
    rewrite <- app_assoc. simpl.
    pose proof (drop_insert_next chunks i _
      ((cs + p)%nat, drop p ct ++ nt,
       token_count tokenizer max_tokens (drop p ct ++ nt)) Hnext) as Hdrop.
    match goal with
    | |- P (_ ++ _ :: ?d) =>
        replace d with
          (((cs + p)%nat, drop p ct ++ nt,
            token_count tokenizer max_tokens (drop p ct ++ nt))
           :: drop (i + 2) chunks) by (symmetry; exact Hdrop)
    end.
    eapply P_move; [lia | exact HP].
  - apply IH in H; [assumption | lia |].
    rewrite <- app_assoc. simpl.
    pose proof (drop_next chunks i _ Hnext) as Hdrop.
    match goal with
    | |- P (_ ++ _ :: ?d) =>
        replace d with ((ns, nt, ntok) :: drop (i + 2) chunks)
          by (symmetry; exact Hdrop)
    end.
    exact HP.
Qed.
(** The list the optimizer returns is the rewritten list, or that list
    without a last chunk whose text is empty once stripped. *)
Lemma optimize_chunks_view chunks cs :
  P chunks ->
  (optimize_chunks db tokenizer max_tokens chunks).1 = Ok cs ->
  exists v, P v /\
    (cs = v \/ exists c, v = cs ++ [c] /\ strip db (chunk_text c) = []).
Proof.
  intros HP H. unfold optimize_chunks in H.
  destruct (length chunks <=? 1)%nat; [injection H as <-; eauto|].
  apply bind_Ok_inv in H as ([[chunks' i] optimized] & Hloop & H).
  destruct (optimize_loop_total db tokenizer max_tokens (length chunks)
              chunks 0 [] ltac:(lia)) as (res & Hres & Hlen & Hi).
  rewrite Hloop in Hres. injection Hres as <-. simpl in Hlen, Hi.
  apply optimize_loop_view with (n := length chunks) in Hloop;
    [|lia|simpl; exact HP].
  simpl in Hloop.
  apply bind_Ok_inv in H as (optimized' & Happend & H).
  assert (Hall : optimized' = optimized ++ drop i chunks').
  { destruct (Nat.ltb_spec i (length chunks')) as [Hlt|Hge].
    - destruct (chunks' !! i) as [c|] eqn:Hc; [|discriminate].
      injection Happend as <-. f_equal.
      pose proof (drop_S chunks' c i Hc) as Hd.
      rewrite (drop_ge chunks' (S i)) in Hd by lia. by symmetry.
    - injection Happend as <-. rewrite drop_ge by lia. by rewrite app_nil_r. }
  subst optimized'. exists (optimized ++ drop i chunks').
  split; [assumption|].
  destruct (last _) as [c|] eqn:Hlast; [|left; by injection H as <-].
  destruct (decide _) as [Hstrip|]; injection H as <-; [|by left].
  right. exists c. apply last_Some in Hlast as [l' Hl'].
  rewrite Hl', removelast_last. split; [reflexivity | assumption].
Qed.
End OptimizerView.

Lemma joined_text_app (a b : list chunk) :
  joined_text (a ++ b) = joined_text a ++ joined_text b.
Proof. unfold joined_text. by rewrite map_app, concat_app. Qed.

Lemma contiguous_from_app (a b : list chunk) : forall s,
  contiguous_from s (a ++ b) <->
  contiguous_from s a /\
  contiguous_from (s + length (joined_text a))%nat b.
Proof.
  induction a as [|c a IH]; intros s; simpl.
  - rewrite Nat.add_0_r. tauto.
  - rewrite IH. unfold joined_text. simpl. rewrite length_app, Nat.add_assoc.
    tauto.
Qed.

Lemma strip_nil db : strip db [] = [].
Proof. reflexivity. Qed.

(** ** More properties of the optimizer *)

Lemma optimize_chunks_text db tokenizer max_tokens chunks :
  exists cs dropped,
    (optimize_chunks db tokenizer max_tokens chunks).1 = Ok cs /\
    joined_text chunks = joined_text cs ++ dropped /\
    strip db dropped = [].
Proof.
  destruct (optimize_chunks_total db tokenizer max_tokens chunks) as [cs Hcs].
  exists cs.
  destruct (optimize_chunks_view db tokenizer max_tokens
              (fun v => joined_text v = joined_text chunks)) with
    (chunks := chunks) (cs := cs) as (v & Hv & Hcases);
    [ | | reflexivity | assumption | ].
  - intros pre s1 t1 n1 s2 t2 n2 rest n H. rewrite <- H.
    rewrite !joined_text_app. unfold joined_text, chunk_text. simpl.
    by rewrite <- app_assoc.
  - intros pre s1 t1 n1 s2 t2 n2 rest p n n' Hp H. rewrite <- H.
    rewrite !joined_text_app. unfold joined_text, chunk_text. simpl.
    rewrite <- (app_assoc (drop p t1)), (app_assoc (take p t1)), take_drop.
    reflexivity.
  - destruct Hcases as [->|(c & -> & Hstrip)].
    + exists []. by rewrite app_nil_r.
    + exists (chunk_text c). rewrite <- Hv, joined_text_app.
      unfold joined_text at 2. simpl. by rewrite app_nil_r.
Qed.

(** The optimizer returns for every chunk list, and the texts of its result,
    joined, are the joined texts of its input, short of at most a final piece
    that is empty once stripped of whitespace. *)
Theorem optimize_chunks_keeps_text db tokenizer max_tokens chunks :
  exists cs dropped,
    (optimize_chunks db tokenizer max_tokens chunks).1 = Ok cs /\
    joined_text chunks = joined_text cs ++ dropped /\
    strip db dropped = [].
Proof. apply optimize_chunks_text. Qed.

(** The optimizer keeps a contiguous chunk list contiguous, from the same
    first offset. *)
Theorem optimize_chunks_contiguous db tokenizer max_tokens s chunks :
  contiguous_from s chunks ->
  exists cs,
    (optimize_chunks db tokenizer max_tokens chunks).1 = Ok cs /\
    contiguous_from s cs.
Proof.
  intros Hcont.
  destruct (optimize_chunks_total db tokenizer max_tokens chunks) as [cs Hcs].
  exists cs. split; [assumption|].
  destruct (optimize_chunks_view db tokenizer max_tokens (contiguous_from s))
    with (chunks := chunks) (cs := cs) as (v & Hv & Hcases);
    [ | | assumption | assumption | ].
  - intros pre s1 t1 n1 s2 t2 n2 rest n H.
    apply contiguous_from_app in H as (Hpre & Hs1 & Hs2 & Hrest).
    apply contiguous_from_app. split; [assumption|]. simpl in *.
    unfold chunk_start, chunk_text in *. simpl in *.
    split; [assumption|]. rewrite length_app, Nat.add_assoc. assumption.
  - intros pre s1 t1 n1 s2 t2 n2 rest p n n' Hp H.
    apply contiguous_from_app in H as (Hpre & Hs1 & Hs2 & Hrest).
    apply contiguous_from_app. split; [assumption|]. simpl in *.
    unfold chunk_start, chunk_text in *. simpl in *.
    rewrite length_take, length_app, length_drop.
    replace (p `min` length t1)%nat with p by lia.
    split_and!; [assumption | lia |].
    replace (s + length (joined_text pre) + p
             + (length t1 - p + length t2))%nat
      with (s + length (joined_text pre) + length t1 + length t2)%nat by lia.
    assumption.
  - destruct Hcases as [->|(c & -> & _)]; [assumption|].
    by apply contiguous_from_app in Hv as [Hv _].
Qed.

Lemma optimize_chunks_contiguous_witness :
  exists cs,
    (optimize_chunks latin1_db char_tokenizer 4
       [(0%nat, [97; 10]%N, 2); (2%nat, [98; 10]%N, 2)]).1 = Ok cs /\
    contiguous_from 0 cs.
Proof.
  apply (optimize_chunks_contiguous latin1_db char_tokenizer 4 0
           [(0%nat, [97; 10]%N, 2); (2%nat, [98; 10]%N, 2)]).
  simpl. split_and!; reflexivity.
Defined.

(** The optimizer never returns more chunks than it was given. *)
Theorem optimize_chunks_no_more_chunks db tokenizer max_tokens chunks :
  exists cs,
    (optimize_chunks db tokenizer max_tokens chunks).1 = Ok cs /\
    (length cs <= length chunks)%nat.
Proof.
  destruct (optimize_chunks_total db tokenizer max_tokens chunks) as [cs Hcs].
  exists cs. split; [assumption|].
  destruct (optimize_chunks_view db tokenizer max_tokens
              (fun v => (length v <= length chunks)%nat))
    with (chunks := chunks) (cs := cs) as (v & Hv & Hcases);
    [ | | lia | assumption | ].
  - intros pre s1 t1 n1 s2 t2 n2 rest n H.
    rewrite length_app in *. simpl in *. lia.
  - intros pre s1 t1 n1 s2 t2 n2 rest p n n' Hp H.
    rewrite length_app in *. simpl in *. lia.
  - destruct Hcases as [->|(c & -> & _)]; [assumption|].
    rewrite length_app in Hv. simpl in Hv. lia.
Qed.

(** ** The first chunk of the splitter *)

Lemma starts_at_app s (a b : list chunk) :
  starts_at s a -> starts_at s (a ++ b).
Proof. intros (c & r & -> & Hc). exists c, (r ++ b). by split. Qed.

Lemma head_inv_emit s st c (cc : list str) tokens pos start :
  head_inv s st -> chunk_start c = current_chunk_start st ->
  head_inv s {| chunks := chunks st ++ [c]; current_pos := pos;
                current_chunk := cc; current_chunk_tokens := tokens;
                current_chunk_start := start |}.
Proof.
  unfold head_inv. simpl. destruct (chunks st); simpl; [|auto].
  intros [Hs _] Hc. congruence.
Qed.

Lemma head_inv_extend s st (sub : list chunk) (cc : list str) tokens pos start :
  head_inv s st -> starts_at (current_chunk_start st) sub ->
  head_inv s {| chunks := chunks st ++ sub; current_pos := pos;
                current_chunk := cc; current_chunk_tokens := tokens;
                current_chunk_start := start |}.
Proof.
  unfold head_inv. simpl. destruct (chunks st); simpl; [|auto].
  intros [Hs _] (c & r & -> & Hc). congruence.
Qed.

Lemma head_inv_pending s st (seg : str) (cc : list str) tokens pos :
  head_inv s st ->
  head_inv s {| chunks := chunks st; current_pos := pos;
                current_chunk := cc ++ [seg]; current_chunk_tokens := tokens;
                current_chunk_start := current_chunk_start st |}.
Proof.
  unfold head_inv. simpl. destruct (chunks st); [|auto].
  intros [Hs _]. split; [assumption|]. by destruct cc.
Qed.

Section SplitterHead.
Variable db : unicode_db.
Variable tokenizer : tokenizer_obj.
Variable max_tokens : Z.
Variable rec : str -> nat -> M (list chunk).
Hypothesis rec_head : forall seg start cs,
  seg <> [] -> (rec seg start).1 = Ok cs -> starts_at start cs.
Variables (text : str) (weight : Z) (s : nat).

Lemma split_body_head i c st st' :
  (i < length text)%nat -> (current_pos st <= i)%nat -> head_inv s st ->
  (split_body db tokenizer max_tokens rec text weight i c st).1 = Ok st' ->
  head_inv s st' /\ (current_pos st' <= S i)%nat.
Proof.
  intros Hi Hpos Hinv H. unfold split_body in H.
  destruct (weight <=? get_weight db c);
    [|injection H as <-; split; [assumption | lia]].
  rewrite fst_bind in H. simpl in H.
  set (segment := slice text (current_pos st) (i + 1)) in *.
  assert (Hseg : segment <> []) by (apply slice_nonempty; lia).
  destruct (_ <=? _).
  { injection H as <-. split; [|simpl; lia]. by apply head_inv_pending. }
  set (st1 := if nonempty (current_chunk st) then _ else st) in H.
  assert (H1 : head_inv s st1).
  { subst st1. destruct (nonempty (current_chunk st)); [|assumption].
    by apply head_inv_emit. }
  destruct (_ && _).
  - apply bind_Ok_inv in H as (sub & Hsub & H). injection H as <-.
    split; [|simpl; lia]. apply head_inv_extend; [assumption|]. eauto.
  - destruct (_ <=? _); [|discriminate]. injection H as <-.
    split; [|simpl; lia]. by apply head_inv_pending.
Qed.

Lemma split_loop_head rest : forall i st st',
  length text = (i + length rest)%nat ->
  (current_pos st <= i)%nat -> head_inv s st ->
  (split_loop db tokenizer max_tokens rec text weight rest i st).1 = Ok st' ->
  head_inv s st' /\ (current_pos st' <= length text)%nat.
Proof.
  induction rest as [|c rest IH]; intros i st st' Hlen Hpos Hinv H;
    simpl in *.
  - injection H as <-. split; [assumption | lia].
  - apply bind_Ok_inv in H as (st1 & Hbody & H).
    apply split_body_head in Hbody as [Hinv1 Hpos1];
      [|lia|assumption|assumption].
    apply (IH (S i) st1); (assumption || lia).
Qed.

Lemma split_tail_head st cs :
  text <> [] -> head_inv s st ->
  (split_tail tokenizer max_tokens rec text weight st).1 = Ok cs ->
  starts_at s cs.
Proof.
  intros Htext Hinv H. unfold split_tail in H.
  apply bind_Ok_inv in H as (st2 & H2 & H).
  assert (Hst2 : head_inv s st2 /\
                 (chunks st2 <> [] \/ current_chunk st2 <> [])).
  { destruct (Nat.ltb_spec (current_pos st) (length text)) as [Hrem|Hdone].
    - rewrite fst_bind in H2. simpl in H2.
      set (remaining := drop (current_pos st) text) in *.
      assert (Hrne : remaining <> []) by (by apply drop_nonempty).
      destruct (_ <=? _).
      { injection H2 as <-. split; [by apply head_inv_pending|].
        right. simpl. by destruct (current_chunk st). }
      set (st1 := if nonempty (current_chunk st) then _ else st) in H2.
      assert (H1 : head_inv s st1).
      { subst st1. destruct (nonempty (current_chunk st)); [|assumption].
        by apply head_inv_emit. }
      destruct (_ && _).
      + apply bind_Ok_inv in H2 as (sub & Hsub & H2). injection H2 as <-.
        split; [apply head_inv_extend; [assumption | eauto]|].
        left. simpl. apply rec_head in Hsub as (c & r & -> & _);
          [|assumption].
        by destruct (chunks st1).
      + destruct (_ <=? _); [|discriminate]. injection H2 as <-.
        split; [by apply head_inv_emit|].
        left. simpl. by destruct (chunks st1).
    - injection H2 as <-. split; [assumption|].
      unfold head_inv in Hinv. destruct (chunks st) as [|c0 r0]; [|by left].
      right. intros Hnil. destruct Hinv as [_ Hzero].
      specialize (Hzero Hnil). destruct text; [congruence | simpl in *; lia]. }
  destruct Hst2 as [Hinv2 Hsome]. unfold head_inv in Hinv2.
  destruct (nonempty (current_chunk st2)) eqn:Hcc; injection H as <-.
  - destruct (chunks st2) as [|c0 r0]; simpl.
    + destruct Hinv2 as [Hs _]. by eexists _, [].
    + by eexists c0, _.
  - destruct (chunks st2) as [|c0 r0]; [|by eexists c0, r0].
    destruct Hsome as [?|Hcur]; [congruence|].
    apply nonempty_true in Hcur. congruence.
Qed.
End SplitterHead.

Lemma split_by_weight_head db tokenizer max_tokens depth :
  forall text weight start cs,
  text <> [] ->
  (split_by_weight db tokenizer max_tokens depth text weight start).1 = Ok cs ->
  starts_at start cs.
Proof.
  induction depth as [|depth IH]; intros text weight start cs Htext H;
    simpl in H; [discriminate|].
  apply bind_Ok_inv in H as (st & Hloop & Htail).
  eapply split_tail_head; [ | exact Htext | | exact Htail].
  - intros seg s' cs' Hseg. by apply IH.
  - eapply split_loop_head; [ | | | | exact Hloop].
    + intros seg s' cs' Hseg. by apply IH.
    + reflexivity.
    + simpl. lia.
    + split; reflexivity.
Qed.

(** The empty text gives no chunk (the fact behind C10, kept apart from it). *)
Lemma empty_text_no_chunks_general db tokenizer n optimize :
  0 < n ->
  (split_text_into_chunks db [] tokenizer (PyInt n) optimize).1 = Ok [].
Proof.
  intros Hpos. unfold split_text_into_chunks, split_and_optimize.
  destruct (Z.leb_spec n 0) as [|_]; [lia|].
  destruct optimize; reflexivity.
Qed.

(** ** More properties of [split_text_into_chunks] *)

(** A call that returns has run the splitter at the paragraph tier and then,
    when asked to, the optimizer. *)
Lemma split_text_into_chunks_stages db text tokenizer n optimize cs :
  (split_text_into_chunks db text tokenizer (PyInt n) optimize).1 = Ok cs ->
  0 < n /\
  exists initial,
    (split_by_weight db tokenizer n recursion_limit text
       PARAGRAPH_SEPARATOR_WEIGHT 0).1 = Ok initial /\
    if optimize then (optimize_chunks db tokenizer n initial).1 = Ok cs
    else cs = initial.
Proof.
  unfold split_text_into_chunks, split_and_optimize.
  destruct (Z.leb_spec n 0) as [Hle|Hpos]; intros H; [discriminate|].
  split; [assumption|].
  apply bind_Ok_inv in H as (initial & Hsplit & H).
  exists initial. split; [assumption|].
  destruct optimize; [assumption | by injection H as <-].
Qed.

(** Without the optimizer a non-empty text yields at least one chunk, and
    the first chunk starts at offset 0. *)
Theorem nonempty_text_first_chunk db text tokenizer n cs :
  text <> [] ->
  (split_text_into_chunks db text tokenizer (PyInt n) false).1 = Ok cs ->
  exists c rest, cs = c :: rest /\ chunk_start c = 0%nat.
Proof.
  intros Htext H.
  apply split_text_into_chunks_stages in H as (_ & initial & Hsplit & ->).
  exact (split_by_weight_head _ _ _ _ _ _ _ _ Htext Hsplit).
Qed.

Lemma nonempty_text_first_chunk_witness :
  exists c rest,
    [(0%nat, [97; 10]%N, 4); (2%nat, [98; 10]%N, 4)] = c :: rest /\
    chunk_start c = 0%nat.
Proof.
  apply (nonempty_text_first_chunk latin1_db text_a_nl_b_nl framed_tokenizer 6).
  - discriminate.
  - vm_compute. reflexivity.
Defined.

(** With or without the optimizer, the first chunk of a result starts at
    offset 0. *)
Theorem first_chunk_offset_zero db text tokenizer n optimize c cs :
  (split_text_into_chunks db text tokenizer (PyInt n) optimize).1
    = Ok (c :: cs) ->
  chunk_start c = 0%nat.
Proof.
  intros H.
  destruct (decide (text = [])) as [->|Htext].
  { (* the empty text gives no chunk at all *)
    pose proof (split_text_into_chunks_stages _ _ _ _ _ _ H) as (Hpos & _).
    rewrite (empty_text_no_chunks_general db tokenizer n optimize Hpos) in H.
    discriminate. }
  apply split_text_into_chunks_stages in H as (_ & initial & Hsplit & H).
  apply split_by_weight_head in Hsplit; [|assumption].
  destruct optimize.
  - destruct (optimize_chunks_view db tokenizer n (starts_at 0))
      with (chunks := initial) (cs := c :: cs) as (v & Hv & Hcases);
      [ | | assumption | assumption | ].
    + intros pre s1 t1 n1 s2 t2 n2 rest k (c1 & r & Heq & Hc1).
      destruct pre as [|p0 pre]; simpl in *; injection Heq as <- <-;
        by eexists _, _.
    + intros pre s1 t1 n1 s2 t2 n2 rest p k k' Hp (c1 & r & Heq & Hc1).
      destruct pre as [|p0 pre]; simpl in *; injection Heq as <- <-;
        by eexists _, _.
    + destruct Hv as (c1 & r & Hv & Hc1).
      destruct Hcases as [<-|(c' & -> & _)]; simpl in Hv; congruence.
  - destruct Hsplit as (c1 & r & Heq & Hc1). congruence.
Qed.

Lemma first_chunk_offset_zero_witness :
  chunk_start (0%nat, [79; 110; 101; 46]%N, 4) = 0%nat.
Proof.
  apply (first_chunk_offset_zero latin1_db text_one_two char_tokenizer 5 true
           (0%nat, [79; 110; 101; 46]%N, 4)
           [(4%nat, [32; 84; 119; 111]%N, 4); (8%nat, [79; 110; 101; 46]%N, 4)]).
  vm_compute. reflexivity.
Defined.

(** No returned chunk has an empty text. *)
Theorem returned_chunks_nonempty db text tokenizer n optimize cs :
  (split_text_into_chunks db text tokenizer (PyInt n) optimize).1 = Ok cs ->
  Forall (fun c => chunk_text c <> []) cs.
Proof.
  intros H. apply split_text_into_chunks_good in H.
  eapply Forall_impl; [exact H|].
  intros c Hc. by apply (good_chunk_text_nonempty tokenizer n).
Qed.

Lemma returned_chunks_nonempty_witness :
  Forall (fun c => chunk_text c <> [])
    [(0%nat, [97; 10]%N, 4); (2%nat, [98; 10]%N, 4)].
Proof.
  apply (returned_chunks_nonempty latin1_db text_a_nl_b_nl framed_tokenizer
           6 false).
  vm_compute. reflexivity.
Defined.

(** With a counter that is additive up to its cap, the sum of the counts of
    pieces that fit the budget together is the count of their join. *)
Lemma additive_seg_sum tokenizer n (segs : list str) :
  additive_counter tokenizer n -> segs <> [] ->
  seg_sum tokenizer n segs <= n ->
  token_count tokenizer n (concat segs) = seg_sum tokenizer n segs.
Proof.
  intros Hadd. induction segs as [|s segs IH]; [congruence|].
  intros _ Hfit. destruct segs as [|s' segs].
  { simpl. rewrite app_nil_r. lia. }
  pose proof (token_count_nonneg tokenizer n s) as Hs.
  change (concat (s :: s' :: segs)) with (s ++ concat (s' :: segs)).
  change (seg_sum tokenizer n (s :: s' :: segs))
    with (token_count tokenizer n s + seg_sum tokenizer n (s' :: segs)) in *.
  rewrite Hadd, IH; [lia | congruence | lia].
Qed.

(** With a counter that is additive up to its cap (one token per character,
    say), the [token_count] of every returned chunk is the counter's result
    on the chunk's text. *)
Theorem additive_counter_exact_counts db text tokenizer n optimize cs :
  additive_counter tokenizer n ->
  (split_text_into_chunks db text tokenizer (PyInt n) optimize).1 = Ok cs ->
  Forall (fun c => chunk_tokens c = token_count tokenizer n (chunk_text c)) cs.
Proof.
  intros Hadd H. apply split_text_into_chunks_good in H.
  eapply Forall_impl; [exact H|].
  intros c (Hle & segs & Hne & _ & <- & Hsum).
  rewrite Hsum. symmetry. apply additive_seg_sum; [assumption..|lia].
Qed.

Lemma char_tokenizer_additive n : 0 <= n -> additive_counter char_tokenizer n.
Proof.
  intros Hn a b. unfold token_count. simpl. unfold truncate.
  rewrite !length_take, length_app. unfold str, char in *. lia.
Qed.

Lemma additive_counter_exact_counts_witness :
  Forall (fun c => chunk_tokens c = token_count char_tokenizer 5 (chunk_text c))
    [(0%nat, [79; 110; 101; 46]%N, 4); (4%nat, [32; 84; 119; 111]%N, 4);
     (4%nat, [79; 110; 101; 46]%N, 4)].
Proof.
  apply (additive_counter_exact_counts latin1_db text_one_two char_tokenizer
           5 false).
  - apply char_tokenizer_additive. lia.
  - vm_compute. reflexivity.
Defined.

(** The optimizer changes where the chunks are cut, not what they say: when
    the call without the optimizer returns, so does the call with it, and the
    joined texts of the two results differ at most by a final piece that is
    empty once stripped of whitespace. *)
Theorem optimizer_keeps_joined_text db text tokenizer n raw :
  (split_text_into_chunks db text tokenizer (PyInt n) false).1 = Ok raw ->
  exists cs dropped,
    (split_text_into_chunks db text tokenizer (PyInt n) true).1 = Ok cs /\
    joined_text raw = joined_text cs ++ dropped /\
    strip db dropped = [].
Proof.
  intros H.
  apply split_text_into_chunks_stages in H as (Hpos & initial & Hsplit & ->).
  destruct (optimize_chunks_text db tokenizer n initial)
    as (cs & dropped & Hopt & Htext & Hstrip).
  exists cs, dropped. split; [|by split].
  unfold split_text_into_chunks, split_and_optimize.
  destruct (Z.leb_spec n 0) as [|_]; [lia|].
  rewrite fst_bind, Hsplit. exact Hopt.
Qed.

Lemma optimizer_keeps_joined_text_witness :
  exists cs dropped,
    (split_text_into_chunks latin1_db text_a_nl_b_nl framed_tokenizer
       (PyInt 6) true).1 = Ok cs /\
    joined_text [(0%nat, [97; 10]%N, 4); (2%nat, [98; 10]%N, 4)]
      = joined_text cs ++ dropped /\
    strip latin1_db dropped = [].
Proof.
  apply (optimizer_keeps_joined_text latin1_db text_a_nl_b_nl framed_tokenizer
           6).
  vm_compute. reflexivity.
Defined.

(** ** What the tokenizer is asked to encode *)

Lemma calls_bind {A B} (m : M A) (k : A -> M B) :
  calls_nonempty m -> (forall a, m.1 = Ok a -> calls_nonempty (k a)) ->
  calls_nonempty (bind m k).
Proof.
  unfold calls_nonempty. intros Hm Hk. rewrite snd_bind.
  destruct m.1 as [a|e]; [|assumption].
  apply Forall_app. split; [assumption | by apply Hk].
Qed.

Lemma calls_ret {A} (a : A) : calls_nonempty (ret a).
Proof. constructor. Qed.

Lemma calls_raise {A} (e : exn) : calls_nonempty (@raise A e).
Proof. constructor. Qed.

Lemma calls_get_token_count tokenizer max_tokens (segment : str) :
  segment <> [] ->
  calls_nonempty (get_token_count tokenizer max_tokens segment).
Proof. intros Hne. by constructor. Qed.

Section SplitterCalls.
Variable db : unicode_db.
Variable tokenizer : tokenizer_obj.
Variable max_tokens : Z.
Variable rec : str -> nat -> M (list chunk).
Hypothesis rec_calls : forall seg start,
  seg <> [] -> calls_nonempty (rec seg start).
Variables (text : str) (weight : Z).

Lemma split_body_calls i c st :
  (i < length text)%nat -> (current_pos st <= i)%nat ->
  calls_nonempty (split_body db tokenizer max_tokens rec text weight i c st).
Proof.
  intros Hi Hpos. unfold split_body.
  destruct (weight <=? get_weight db c); [|apply calls_ret].
  assert (Hseg : slice text (current_pos st) (i + 1) <> [])
    by (apply slice_nonempty; lia).
  apply calls_bind; [by apply calls_get_token_count|].
  intros tokens _. destruct (_ <=? _); [apply calls_ret|].
  destruct (_ && _).
  - apply calls_bind; [by apply rec_calls | intros; apply calls_ret].
  - destruct (_ <=? _); [apply calls_ret | apply calls_raise].
Qed.

Lemma split_body_pos_le i c st st' :
  (current_pos st <= i)%nat ->
  (split_body db tokenizer max_tokens rec text weight i c st).1 = Ok st' ->
  (current_pos st' <= S i)%nat.
Proof.
  intros Hpos H. unfold split_body in H.
  destruct (weight <=? get_weight db c); [|injection H as <-; lia].
  rewrite fst_bind in H. simpl in H.
  destruct (_ <=? _); [injection H as <-; simpl; lia|].
  destruct (_ && _).
  - apply bind_Ok_inv in H as (sub & _ & H). injection H as <-. simpl. lia.
  - destruct (_ <=? _); [|discriminate]. injection H as <-. simpl. lia.
Qed.

Lemma split_loop_calls rest : forall i st,
  length text = (i + length rest)%nat -> (current_pos st <= i)%nat ->
  calls_nonempty (split_loop db tokenizer max_tokens rec text weight rest i st).
Proof.
  induction rest as [|c rest IH]; intros i st Hlen Hpos; simpl in *.
  - apply calls_ret.
  - apply calls_bind; [apply split_body_calls; lia|].
    intros st' Hbody. apply IH; [lia|].
    eapply split_body_pos_le; eassumption.
Qed.

Lemma split_tail_calls st :
  calls_nonempty (split_tail tokenizer max_tokens rec text weight st).
Proof.
  unfold split_tail. apply calls_bind.
  - destruct (Nat.ltb_spec (current_pos st) (length text)) as [Hrem|_];
      [|apply calls_ret].
    assert (Hrne : drop (current_pos st) text <> [])
      by (by apply drop_nonempty).
    apply calls_bind; [by apply calls_get_token_count|].
    intros tokens _. destruct (_ <=? _); [apply calls_ret|].
    destruct (_ && _).
    + apply calls_bind; [by apply rec_calls | intros; apply calls_ret].
    + destruct (_ <=? _); [apply calls_ret | apply calls_raise].
  - intros st2 _. destruct (nonempty _); apply calls_ret.
Qed.
End SplitterCalls.

Lemma split_by_weight_calls db tokenizer max_tokens depth :
  forall text weight start,
  calls_nonempty (split_by_weight db tokenizer max_tokens depth text weight start).
Proof.
  induction depth as [|depth IH]; intros text weight start; simpl.
  - apply calls_raise.
  - apply calls_bind.
    + apply split_loop_calls; [intros; apply IH | reflexivity | simpl; lia].
    + intros st _. apply split_tail_calls. intros; apply IH.
Qed.

Section OptimizerCalls.
Variable db : unicode_db.
Variable tokenizer : tokenizer_obj.
Variable max_tokens : Z.

Lemma scan_body_calls cur nxt best j :
  nxt <> [] ->
  calls_nonempty (scan_body db tokenizer max_tokens cur nxt best j).
Proof.
  intros Hnxt. unfold scan_body.
  destruct (cur !! j) as [c|] eqn:Hc; [|apply calls_raise].
  apply lookup_lt_Some in Hc.
  destruct (_ <? _); [|apply calls_ret].
  destruct (_ <=? _)%nat; [|apply calls_ret].
  apply calls_bind.
  { apply calls_get_token_count. intros Hnil.
    apply (f_equal length) in Hnil. rewrite length_take in Hnil.
    simpl in Hnil. lia. }
  intros t1 _. apply calls_bind.
  { apply calls_get_token_count. intros Hnil.
    apply app_eq_nil in Hnil as [_ ?]. contradiction. }
  intros t2 _. destruct (_ && _); apply calls_ret.
Qed.

Lemma scan_loop_calls cur nxt js : forall best,
  nxt <> [] ->
  calls_nonempty (scan_loop db tokenizer max_tokens cur nxt js best).
Proof.
  induction js as [|j js IH]; intros best Hnxt; simpl.
  - apply calls_ret.
  - apply calls_bind; [by apply scan_body_calls | intros; by apply IH].
Qed.

Lemma optimize_loop_calls n : forall chunks i optimized,
  (length chunks - i <= n)%nat ->
  Forall (fun c => chunk_text c <> []) chunks ->
  calls_nonempty (optimize_loop db tokenizer max_tokens chunks i optimized).
Proof.
  induction n as [|n IH]; intros chunks i optimized Hn Hch;
    rewrite optimize_loop_once;
    destruct (lt_dec i (length chunks - 1)) as [Hlt|Hge];
    try apply calls_ret; [lia|].
  destruct (chunks !! i) as [[[cs ct] ctok]|] eqn:Hcur; [|apply calls_raise].
  destruct (chunks !! (i + 1)%nat) as [[[ns nt] ntok]|] eqn:Hnext;
    [|apply calls_raise].
  pose proof (Forall_lookup_1 _ _ _ _ Hch Hcur) as Hct.
  pose proof (Forall_lookup_1 _ _ _ _ Hch Hnext) as Hnt.
  unfold chunk_text in Hct, Hnt. simpl in Hct, Hnt.
  cbv zeta. apply calls_bind.
  { apply calls_get_token_count. by destruct ct. }
  intros combined _. destruct (_ <=? _); [apply IH; [lia | assumption]|].
  apply calls_bind; [by apply scan_loop_calls|].
  intros best Hfind. destruct best.1 as [p|] eqn:Hbest;
    [|apply IH; [lia | assumption]].
  destruct (find_split_valid _ _ _ _ _ _ _ Hfind Hbest) as [_ Hp].
  apply calls_bind.
  { apply calls_get_token_count. intros Hnil.
    apply (f_equal length) in Hnil. rewrite length_take in Hnil.
    simpl in Hnil. lia. }
  intros first _.
  assert (Hsecond : drop p ct ++ nt <> []).
  { intros Hnil. apply app_eq_nil in Hnil as [_ ?]. contradiction. }
  apply calls_bind; [by apply calls_get_token_count|].
  intros second _. apply IH; [rewrite length_insert; lia|].
  by apply Forall_insert.
Qed.

Lemma optimize_chunks_calls chunks :
  Forall (fun c => chunk_text c <> []) chunks ->
  calls_nonempty (optimize_chunks db tokenizer max_tokens chunks).
Proof.
  intros Hch. unfold optimize_chunks.
  destruct (_ <=? _)%nat; [apply calls_ret|].
  apply calls_bind; [by apply (optimize_loop_calls (length chunks)); [lia|]|].
  intros [[chunks' i] optimized] _. apply calls_bind.
  - destruct (_ <? _)%nat; [|apply calls_ret].
    destruct (chunks' !! i); [apply calls_ret | apply calls_raise].
  - intros optimized' _.
    destruct (last _); [destruct (decide _)|]; apply calls_ret.
Qed.
End OptimizerCalls.

(** The tokenizer is never asked to encode an empty string, whatever the
    text, the budget and the outcome of the call. *)
Theorem tokenizer_never_given_empty db text tokenizer max_tokens optimize :
  Forall (fun segment : str => segment <> [])
    (split_text_into_chunks db text tokenizer max_tokens optimize).2.
Proof.
  change (calls_nonempty
            (split_text_into_chunks db text tokenizer max_tokens optimize)).
  unfold split_text_into_chunks.
  destruct max_tokens as [n|]; [|apply calls_raise].
  destruct (Z.leb_spec n 0) as [|Hpos]; [apply calls_raise|].
  unfold split_and_optimize. apply calls_bind.
  - apply split_by_weight_calls.
  - intros initial Hsplit. destruct optimize; [|apply calls_ret].
    apply optimize_chunks_calls.
    apply split_by_weight_good in Hsplit; [|assumption].
    eapply Forall_impl; [exact Hsplit|].
    intros c Hc. by apply (good_chunk_text_nonempty tokenizer n).
Qed.

(** ** The pieces behind a chunk's count *)

Lemma units_from_body db weight (body : str) : forall pending rest,
  Forall (fun x => get_weight db x < weight) body ->
  units_from db weight pending (body ++ rest) =
  units_from db weight (pending ++ body) rest.
Proof.
  induction body as [|x body IH]; intros pending rest Hall; simpl.
  - by rewrite app_nil_r.
  - apply Forall_cons in Hall as [Hx Hall].
    destruct (Z.leb_spec weight (get_weight db x)); [lia|].
    rewrite IH by assumption. by rewrite <- app_assoc.
Qed.

Lemma units_from_closed db weight (seg rest : str) :
  closed_unit db weight seg ->
  units db weight (seg ++ rest) = seg :: units db weight rest.
Proof.
  intros (body & c & -> & Hbody & Hc). unfold units.
  rewrite <- app_assoc, units_from_body by assumption. simpl.
  destruct (Z.leb_spec weight (get_weight db c)); [reflexivity | lia].
Qed.

Lemma units_closed_app db weight (segs : list str) (rest : str) :
  Forall (closed_unit db weight) segs ->
  units db weight (concat segs ++ rest) = segs ++ units db weight rest.
Proof.
  induction segs as [|seg segs IH]; intros Hall; simpl; [reflexivity|].
  apply Forall_cons in Hall as [Hseg Hall].
  rewrite <- app_assoc, units_from_closed by assumption.
  by rewrite IH.
Qed.

Lemma units_closed db weight (segs : list str) :
  Forall (closed_unit db weight) segs ->
  units db weight (concat segs) = segs.
Proof.
  intros Hall. pose proof (units_closed_app db weight segs [] Hall) as H.
  rewrite !app_nil_r in H. exact H.
Qed.

Lemma units_closed_rest db weight (segs : list str) (rest : str) :
  Forall (closed_unit db weight) segs ->
  Forall (fun x => get_weight db x < weight) rest -> rest <> [] ->
  units db weight (concat (segs ++ [rest])) = segs ++ [rest].
Proof.
  intros Hall Hrest Hne. rewrite concat_app. simpl. rewrite app_nil_r.
  rewrite units_closed_app by assumption. f_equal.
  apply (units_from_no_separator db weight rest []); assumption.
Qed.

Section SplitterTier.
Variable db : unicode_db.
Variable tokenizer : tokenizer_obj.
Variable max_tokens : Z.
Variable rec : str -> nat -> M (list chunk).
Variables (text : str) (weight : Z).
Hypothesis weight_range : 0 <= weight <= 4.
Hypothesis rec_tier : 0 < weight -> forall seg start cs,
  (rec seg start).1 = Ok cs ->
  Forall (unit_sum_count db tokenizer max_tokens) cs.

Local Abbreviation count := (token_count tokenizer max_tokens).
Local Abbreviation total := (seg_sum tokenizer max_tokens).
Local Abbreviation unit_sum := (unit_sum_count db tokenizer max_tokens).
Local Abbreviation inv := (tier_inv db tokenizer max_tokens text weight).

(** A pending chunk made of closed units is emitted with a unit sum. *)
Lemma unit_sum_pending start (segs : list str) :
  units db weight (concat segs) = segs ->
  unit_sum (start, concat segs, total segs).
Proof.
  intros Hunits. exists weight. split; [assumption|].
  unfold chunk_tokens, chunk_text. simpl. by rewrite Hunits.
Qed.

Lemma split_body_tier i c st st' :
  text !! i = Some c -> inv i st ->
  (split_body db tokenizer max_tokens rec text weight i c st).1 = Ok st' ->
  inv (S i) st'.
Proof.
  intros Hc (Hch & Hpos & Hpend & Hcc & Htok) H.
  pose proof (slice_snoc text (current_pos st) i c Hc Hpos) as Hsnoc.
  unfold split_body in H.
  destruct (Z.leb_spec weight (get_weight db c)) as [Hsep|Hno].
  2:{ injection H as <-. split_and!; auto with lia.
      rewrite <- Nat.add_1_r, Hsnoc. apply Forall_app. split; [assumption|].
      by constructor. }
  rewrite fst_bind in H. simpl in H.
  set (segment := slice text (current_pos st) (i + 1)) in *.
  assert (Hclosed : closed_unit db weight segment).
  { exists (slice text (current_pos st) i), c. by split_and!. }
  assert (Hnil : Forall (fun x => get_weight db x < weight)
                   (slice text (i + 1) (S i))).
  { rewrite Nat.add_1_r, slice_empty. constructor. }
  destruct (_ <=? _).
  { injection H as <-. split_and!; simpl; auto with lia.
    - apply Forall_app. split; [assumption | by constructor].
    - rewrite seg_sum_app. simpl. lia. }
  set (st1 := if nonempty (current_chunk st) then _ else st) in H.
  assert (H1 : Forall unit_sum (chunks st1) /\
               Forall (closed_unit db weight) (current_chunk st1) /\
               current_chunk_tokens st1 = total (current_chunk st1) /\
               current_chunk st1 = []).
  { split_and!; subst st1.
    - destruct (nonempty (current_chunk st)); simpl; [|assumption].
      apply Forall_app. split; [assumption|]. constructor; [|constructor].
      rewrite Htok. apply unit_sum_pending. by apply units_closed.
    - destruct (nonempty (current_chunk st)); simpl;
        [constructor | assumption].
    - destruct (nonempty (current_chunk st)); simpl;
        [reflexivity | assumption].
    - destruct (current_chunk st) eqn:Hcur; simpl; [|reflexivity].
      by rewrite Hcur. }
  destruct H1 as (Hch1 & Hcc1 & Htok1 & Hempty1).
  destruct (max_tokens <? count segment); simpl in H.
  - unfold NO_WEIGHT in H. destruct (Z.ltb_spec 0 weight) as [Hw|Hw].
    + apply bind_Ok_inv in H as (sub & Hsub & H). injection H as <-.
      split_and!; simpl; auto with lia.
      apply Forall_app. split; [assumption|]. by eapply rec_tier.
    + destruct (_ <=? _); [|discriminate]. injection H as <-.
      split_and!; simpl; auto with lia.
      * apply Forall_app. split; [assumption | by constructor].
      * rewrite Hempty1. simpl. lia.
  - destruct (_ <=? _); [|discriminate]. injection H as <-.
    split_and!; simpl; auto with lia.
    + apply Forall_app. split; [assumption | by constructor].
    + rewrite Hempty1. simpl. lia.
Qed.

Lemma split_loop_tier rest : forall i st st',
  drop i text = rest -> (i <= length text)%nat -> inv i st ->
  (split_loop db tokenizer max_tokens rec text weight rest i st).1 = Ok st' ->
  inv (length text) st'.
Proof.
  induction rest as [|c rest IH]; intros i st st' Hdrop Hle Hinv H; simpl in H.
  - injection H as <-.
    assert (Hlen : i = length text).
    { apply (f_equal length) in Hdrop. rewrite length_drop in Hdrop.
      simpl in Hdrop. lia. }
    by subst i.
  - assert (Hlt : (i < length text)%nat).
    { apply (f_equal length) in Hdrop. rewrite length_drop in Hdrop.
      simpl in Hdrop. lia. }
    apply drop_cons_inv in Hdrop as [Hc Hdrop].
    apply bind_Ok_inv in H as (st1 & Hbody & H).
    apply (IH (S i) st1); [assumption | lia | | assumption].
    by eapply split_body_tier.
Qed.

Lemma split_tail_tier st cs :
  inv (length text) st ->
  (split_tail tokenizer max_tokens rec text weight st).1 = Ok cs ->
  Forall unit_sum cs.
Proof.
  intros (Hch & Hpos & Hpend & Hcc & Htok) H.
  unfold split_tail in H. apply bind_Ok_inv in H as (st2 & H2 & H).
  rewrite slice_to_end in Hpend.
  assert (Hst2 : Forall unit_sum (chunks st2) /\
            units db weight (concat (current_chunk st2)) = current_chunk st2 /\
            current_chunk_tokens st2 = total (current_chunk st2)).
  { destruct (Nat.ltb_spec (current_pos st) (length text)) as [Hrem|_].
    2:{ injection H2 as <-. split_and!; try assumption.
        by apply units_closed. }
    rewrite fst_bind in H2. simpl in H2.
    set (remaining := drop (current_pos st) text) in *.
    assert (Hrne : remaining <> []) by (by apply drop_nonempty).
    destruct (_ <=? _).
    { injection H2 as <-. split_and!; simpl; try assumption.
      - by apply units_closed_rest.
      - rewrite seg_sum_app. simpl. lia. }
    set (st1 := if nonempty (current_chunk st) then _ else st) in H2.
    assert (H1 : Forall unit_sum (chunks st1) /\
                 current_chunk st1 = current_chunk st /\
                 current_chunk_tokens st1 = current_chunk_tokens st).
    { subst st1. destruct (nonempty (current_chunk st)); simpl; [|auto].
      split_and!; try reflexivity.
      apply Forall_app. split; [assumption|]. constructor; [|constructor].
      rewrite Htok. apply unit_sum_pending. by apply units_closed. }
    destruct H1 as (Hch1 & Hcur1 & Htok1).
    destruct (max_tokens <? count remaining); simpl in H2.
    - unfold NO_WEIGHT in H2. destruct (Z.ltb_spec 0 weight) as [Hw|Hw].
      + apply bind_Ok_inv in H2 as (sub & Hsub & H2). injection H2 as <-.
        simpl. rewrite Hcur1, Htok1. split_and!; try assumption.
        * apply Forall_app. split; [assumption|]. by eapply rec_tier.
        * by apply units_closed.
      + destruct (_ <=? _); [|discriminate]. injection H2 as <-.
        simpl. rewrite Hcur1, Htok1. split_and!; try assumption.
        * apply Forall_app. split; [assumption|].
          constructor; [|constructor]. exists weight. split; [assumption|].
          unfold chunk_tokens, chunk_text. simpl. unfold units.
          rewrite (units_from_no_separator db weight remaining [])
            by assumption.
          simpl. lia.
        * by apply units_closed.
    - destruct (_ <=? _); [|discriminate]. injection H2 as <-.
      simpl. rewrite Hcur1, Htok1. split_and!; try assumption.
      + apply Forall_app. split; [assumption|].
        constructor; [|constructor]. exists weight. split; [assumption|].
        unfold chunk_tokens, chunk_text. simpl. unfold units.
        rewrite (units_from_no_separator db weight remaining [])
          by assumption.
        simpl. lia.
      + by apply units_closed. }
  destruct Hst2 as (Hch2 & Hunits2 & Htok2).
  destruct (nonempty (current_chunk st2)); injection H as <-; [|assumption].
  apply Forall_app. split; [assumption|]. constructor; [|constructor].
  rewrite Htok2. by apply unit_sum_pending.
Qed.
End SplitterTier.

Lemma split_init_tier db tokenizer max_tokens text weight start :
  tier_inv db tokenizer max_tokens text weight 0 (split_init start).
Proof.
  unfold tier_inv. simpl. rewrite slice_empty. split_and!; auto.
Qed.

Lemma split_by_weight_tier db tokenizer max_tokens depth :
  forall text weight start cs,
  0 <= weight <= 4 ->
  (split_by_weight db tokenizer max_tokens depth text weight start).1 = Ok cs ->
  Forall (unit_sum_count db tokenizer max_tokens) cs.
Proof.
  induction depth as [|depth IH]; intros text weight start cs Hw H;
    simpl in H; [discriminate|].
  apply bind_Ok_inv in H as (st & Hloop & Htail).
  assert (Hrec : 0 < weight -> forall seg s cs',
    (split_by_weight db tokenizer max_tokens depth seg (weight - 1) s).1 =
      Ok cs' ->
    Forall (unit_sum_count db tokenizer max_tokens) cs').
  { intros Hpos seg s cs'. apply IH. lia. }
  eapply split_tail_tier; [exact Hw | exact Hrec | | exact Htail].
  eapply split_loop_tier; [exact Hw | exact Hrec | | | | exact Hloop].
  - reflexivity.
  - lia.
  - apply split_init_tier.
Qed.

(** The optimizer counts again the text of every chunk it writes, and leaves
    the other chunks as they were. *)
Section OptimizerCounts.
Variable db : unicode_db.
Variable tokenizer : tokenizer_obj.
Variable max_tokens : Z.
Variable Q : chunk -> Prop.
Hypothesis Q_recounted : forall start t,
  Q (start, t, token_count tokenizer max_tokens t).

Lemma optimize_loop_counts n : forall chunks i optimized res,
  (length chunks - i <= n)%nat ->
  Forall Q chunks -> Forall Q optimized ->
  (optimize_loop db tokenizer max_tokens chunks i optimized).1 = Ok res ->
  Forall Q res.1.1 /\ Forall Q res.2.
Proof.
  induction n as [|n IH]; intros chunks i optimized res Hn Hch Hopt H;
    rewrite optimize_loop_once in H;
    destruct (lt_dec i (length chunks - 1)) as [Hlt|Hge];
    try (injection H as <-; by split); [lia|].
  destruct (chunks !! i) as [[[cs ct] ctok]|] eqn:Hcur; [|discriminate].
  destruct (chunks !! (i + 1)%nat) as [[[ns nt] ntok]|] eqn:Hnext;
    [|discriminate].
  pose proof (Forall_lookup_1 _ _ _ _ Hch Hcur) as Hqc.
  cbv zeta in H. rewrite fst_bind in H. simpl in H.
  destruct (_ <=? _).
  { apply IH in H; [assumption | lia | assumption |].
    apply Forall_app. split; [assumption|]. constructor; [|constructor].
    apply Q_recounted. }
  apply bind_Ok_inv in H as (best & Hfind & H).
  destruct best.1 as [p|].
  - rewrite !fst_bind in H. simpl in H.
    apply IH in H; [assumption | rewrite length_insert; lia | |].
    + apply Forall_insert; [assumption | apply Q_recounted].
    + apply Forall_app. split; [assumption|]. constructor; [|constructor].
      apply Q_recounted.
  - apply IH in H; [assumption | lia | assumption |].
    apply Forall_app. split; [assumption|]. by constructor.
Qed.

Lemma optimize_chunks_counts chunks cs :
  Forall Q chunks ->
  (optimize_chunks db tokenizer max_tokens chunks).1 = Ok cs ->
  Forall Q cs.
Proof.
  intros Hch H. unfold optimize_chunks in H.
  destruct (length chunks <=? 1)%nat; [by injection H as <-|].
  apply bind_Ok_inv in H as ([[chunks' i] optimized] & Hloop & H).
  eapply optimize_loop_counts in Hloop as [Hch' Hopt];
    [ | reflexivity | assumption | constructor ].
  simpl in Hch', Hopt.
  apply bind_Ok_inv in H as (optimized' & Happend & H).
  assert (Hopt' : Forall Q optimized').
  { destruct (i <? length chunks')%nat; [|by injection Happend as <-].
    destruct (chunks' !! i) as [c|] eqn:Hc; [|discriminate].
    injection Happend as <-. apply Forall_app. split; [assumption|].
    constructor; [|constructor]. exact (Forall_lookup_1 _ _ _ _ Hch' Hc). }
  destruct (last optimized') as [c|]; [|by injection H as <-].
  destruct (decide (strip db (chunk_text c) = [])); injection H as <-;
    [by apply Forall_removelast | assumption].
Qed.
End OptimizerCounts.

(** C2, amended. The chunks that the splitter produces carry, as
    [token_count], the sum of the counter's results on the units of their own
    text at one of the five tiers: the pieces obtained by cutting the text
    after every character whose weight reaches the tier. Without the
    optimizer these are the chunks returned. With it, a returned chunk is
    either one of the splitter's chunks, passed on with that sum, or a chunk
    whose [token_count] is the counter's result on its text. *)
Theorem chunk_tokens_unit_sum_or_exact db text tokenizer n optimize cs :
  (split_text_into_chunks db text tokenizer (PyInt n) optimize).1 = Ok cs ->
  exists initial,
    (split_by_weight db tokenizer n recursion_limit text
       PARAGRAPH_SEPARATOR_WEIGHT 0).1 = Ok initial /\
    Forall (unit_sum_count db tokenizer n) initial /\
    if optimize
    then Forall (fun c => c ∈ initial \/ exact_count tokenizer n c) cs
    else cs = initial.
Proof.
  intros H.
  apply split_text_into_chunks_stages in H as (_ & initial & Hsplit & H).
  exists initial. split; [assumption|]. split.
  - eapply split_by_weight_tier; [|exact Hsplit].
    unfold PARAGRAPH_SEPARATOR_WEIGHT. lia.
  - destruct optimize; [|assumption].
    eapply (optimize_chunks_counts db tokenizer n); [| |exact H].
    + intros start t. by right.
    + apply Forall_forall. intros c Hc. by left.
Qed.

Lemma chunk_tokens_unit_sum_or_exact_witness :
  exists initial,
    (split_by_weight latin1_db framed_tokenizer 8 recursion_limit
       text_a_nl_b_nl PARAGRAPH_SEPARATOR_WEIGHT 0).1 = Ok initial /\
    Forall (unit_sum_count latin1_db framed_tokenizer 8) initial /\
    Forall (fun c => c ∈ initial \/ exact_count framed_tokenizer 8 c)
      [(0%nat, text_a_nl_b_nl, 8)].
Proof.
  apply (chunk_tokens_unit_sum_or_exact latin1_db text_a_nl_b_nl
           framed_tokenizer 8 true).
  vm_compute. reflexivity.
Defined.

(** The units behind the count 8 of "a\nb\n": at the tier of paragraph
    separators the text is cut after each line feed, and each of the two
    units takes four tokens with the framing tokenizer. *)
Example units_a_nl_b_nl :
  units latin1_db PARAGRAPH_SEPARATOR_WEIGHT text_a_nl_b_nl
    = [[97; 10]%N; [98; 10]%N] /\
  seg_sum framed_tokenizer 8
    (units latin1_db PARAGRAPH_SEPARATOR_WEIGHT text_a_nl_b_nl) = 8.
Proof. split; vm_compute; reflexivity. Qed.
